(** * excel_cleaner: normalisation, alignment, deduplication and audit

    A shallow embedding of [src/excel_cleaner.py].  Python strings are
    sequences of Unicode code points; the built-in string methods the
    program calls ([strip], [split], [upper], [lower], [capitalize],
    [title], [isdigit], [in], [join], [re.split]) are defined over them
    relative to a table of character properties, so that the general
    theorems hold for every such table and the examples are evaluated on
    a concrete excerpt of the Unicode tables.  Operations that can raise
    in Python (indexing, [max] of an empty sequence, the explicit
    [raise] statements) live in a small exception monad. *)

From Stdlib Require Import String Ascii.
From Stdlib Require Import List NArith Arith Bool Lia Permutation.
From Stdlib Require DecimalFacts DecimalNat.
Import ListNotations.

(* ================================================================== *)
(** ** Exceptions *)

(** The exceptions the run can meet: those the program and the
    built-ins it calls raise, with their message, and, kept apart from
    them, what is raised inside a call of pandas, xlsxwriter or the
    operating system, with its class and message. *)
Inductive exn : Type :=
| IndexError
| ValueError (message : string)
| FileNotFoundError (message : string)
| UnicodeDecodeError
| LibraryError (class message : string).

Inductive Res (A : Type) : Type :=
| Ok (a : A)
| Raise (e : exn).

Arguments Ok {A} a.
Arguments Raise {A} e.

Definition bind {A B : Type} (m : Res A) (k : A -> Res B) : Res B :=
  match m with
  | Ok a => k a
  | Raise e => Raise e
  end.

Declare Scope res_scope.
Delimit Scope res_scope with res.
Notation "x <- m ;; k" := (bind m (fun x => k))
  (at level 61, m at next level, right associativity) : res_scope.
Open Scope res_scope.

(** The list comprehension [[f(x) for x in xs]] with a body that may raise. *)
Fixpoint mapM {A B : Type} (f : A -> Res B) (xs : list A) : Res (list B) :=
  match xs with
  | [] => Ok []
  | x :: rest =>
      y <- f x ;;
      ys <- mapM f rest ;;
      Ok (y :: ys)
  end.

(* ================================================================== *)
(** ** Strings *)

(** A character is a Unicode code point, a string a sequence of them. *)
Definition char : Type := N.
Definition str : Type := list char.

Definition str_eqb (a b : str) : bool :=
  if list_eq_dec N.eq_dec a b then true else false.

Definition row_eqb (a b : list str) : bool :=
  if list_eq_dec (list_eq_dec N.eq_dec) a b then true else false.

(** Literals are written as UTF-8 text, the encoding of the source file
    and of the input the program opens. *)
Fixpoint utf8_chars (bs : list N) (more : nat) (acc : N) : str :=
  match bs with
  | [] => []
  | b :: rest =>
      match more with
      | S k =>
          let acc' := (acc * 64 + b mod 64)%N in
          match k with
          | O => acc' :: utf8_chars rest 0 0
          | S _ => utf8_chars rest k acc'
          end
      | O =>
          if (b <? 128)%N then b :: utf8_chars rest 0 0
          else if (b <? 224)%N then utf8_chars rest 1 (b mod 32)%N
          else if (b <? 240)%N then utf8_chars rest 2 (b mod 16)%N
          else utf8_chars rest 3 (b mod 8)%N
      end
  end.

Definition u (s : string) : str :=
  utf8_chars (map (fun a => N_of_ascii a) (list_ascii_of_string s)) 0 0.

Arguments u s%_string.

(** [s[i]] *)
Definition getitem (s : str) (i : nat) : Res char :=
  match nth_error s i with
  | Some c => Ok c
  | None => Raise IndexError
  end.

(** [sep.join(parts)] *)
Fixpoint join (sep : str) (parts : list str) : str :=
  match parts with
  | [] => []
  | [p] => p
  | p :: rest => p ++ sep ++ join sep rest
  end.

(** [needle in hay] *)
Fixpoint startswith (hay prefix : str) : bool :=
  match prefix, hay with
  | [], _ => true
  | _ :: _, [] => false
  | p :: ps, h :: hs => (p =? h)%N && startswith hs ps
  end.

Fixpoint contains (needle hay : str) : bool :=
  startswith hay needle ||
  match hay with
  | [] => false
  | _ :: hs => contains needle hs
  end.

(** [re.split(r"[;,]", line)]: one field per separator plus one; empty
    fields are kept. *)
Definition is_sep (c : char) : bool := (c =? 59)%N || (c =? 44)%N.

Fixpoint re_split_from (cur : str) (line : str) : list str :=
  match line with
  | [] => [cur]
  | c :: rest =>
      if is_sep c then cur :: re_split_from [] rest
      else re_split_from (cur ++ [c]) rest
  end.

Definition re_split (line : str) : list str := re_split_from [] line.

(** [str(n)] for a non-negative integer. *)
Definition digit_char (d : N) : char := (48 + d)%N.

Fixpoint uint_chars (d : Decimal.uint) : str :=
  match d with
  | Decimal.Nil => []
  | Decimal.D0 r => digit_char 0 :: uint_chars r
  | Decimal.D1 r => digit_char 1 :: uint_chars r
  | Decimal.D2 r => digit_char 2 :: uint_chars r
  | Decimal.D3 r => digit_char 3 :: uint_chars r
  | Decimal.D4 r => digit_char 4 :: uint_chars r
  | Decimal.D5 r => digit_char 5 :: uint_chars r
  | Decimal.D6 r => digit_char 6 :: uint_chars r
  | Decimal.D7 r => digit_char 7 :: uint_chars r
  | Decimal.D8 r => digit_char 8 :: uint_chars r
  | Decimal.D9 r => digit_char 9 :: uint_chars r
  end.

Definition str_of_nat (n : nat) : str := uint_chars (Nat.to_uint n).

(* ------------------------------------------------------------------ *)
(** *** Character properties *)

(** The part of the Unicode character database the string methods
    consult.  Case mappings are the full ones: a character may map to
    several.  The lowercase mapping is taken context-free (the
    Final_Sigma rule for U+03A3 is outside this model). *)
Record UnicodeData : Type := {
  is_whitespace : char -> bool;
  is_digit : char -> bool;
  is_cased : char -> bool;
  to_upper : char -> str;
  to_lower : char -> str;
  to_title : char -> str
}.

Section PyStr.

Variable db : UnicodeData.

(** [s.lstrip()], [s.rstrip()], [s.strip()] *)
Fixpoint lstrip (s : str) : str :=
  match s with
  | [] => []
  | c :: rest => if is_whitespace db c then lstrip rest else s
  end.

Definition rstrip (s : str) : str := rev (lstrip (rev s)).

Definition strip (s : str) : str := rstrip (lstrip s).

(** [s.split()]: maximal runs of non-whitespace characters. *)
Fixpoint split_from (cur : str) (s : str) : list str :=
  match s with
  | [] => match cur with [] => [] | _ :: _ => [cur] end
  | c :: rest =>
      if is_whitespace db c then
        match cur with
        | [] => split_from [] rest
        | _ :: _ => cur :: split_from [] rest
        end
      else split_from (cur ++ [c]) rest
  end.

Definition split (s : str) : list str := split_from [] s.

(** [s.upper()], [s.lower()].  Every character is lower-cased by
    [to_lower], U+03A3 included; Python lower-cases U+03A3 to U+03C3 or
    to U+03C2 by its neighbours, so [lower], [capitalize] and [title]
    are the string methods on the strings without U+03A3. *)
Definition upper (s : str) : str := flat_map (to_upper db) s.
Definition lower (s : str) : str := flat_map (to_lower db) s.

(** [s.capitalize()]: first character title-cased, the rest lower-cased. *)
Definition capitalize (s : str) : str :=
  match s with
  | [] => []
  | c :: rest => to_title db c ++ lower rest
  end.

(** [s.title()]: a character that follows a cased character is
    lower-cased, any other is title-cased. *)
Fixpoint title_from (previous_is_cased : bool) (s : str) : str :=
  match s with
  | [] => []
  | c :: rest =>
      (if previous_is_cased then to_lower db c else to_title db c)
        ++ title_from (is_cased db c) rest
  end.

Definition title (s : str) : str := title_from false s.

(** [s.isdigit()] *)
Definition isdigit (s : str) : bool :=
  match s with
  | [] => false
  | _ :: _ => forallb (is_digit db) s
  end.

End PyStr.

(* ------------------------------------------------------------------ *)
(** *** An excerpt of the Unicode tables

    Basic Latin, U+00DF, U+0130 and the Cyrillic letters U+0400-U+045F,
    with the complete set of whitespace characters.  A code point outside
    the excerpt is left as a caseless non-digit; the excerpt only serves
    to evaluate examples. *)
Module Ucd.

Local Open Scope N_scope.

Definition between (lo hi c : N) : bool := (lo <=? c) && (c <=? hi).

Definition whitespace (c : char) : bool :=
  between 9 13 c || between 28 32 c || (c =? 133) || (c =? 160)
  || (c =? 5760) || between 8192 8202 c || (c =? 8232) || (c =? 8233)
  || (c =? 8239) || (c =? 8287) || (c =? 12288).

Definition digit (c : char) : bool :=
  between 48 57 c || (c =? 178) || (c =? 179) || (c =? 185).

Definition cased (c : char) : bool :=
  between 65 90 c || between 97 122 c || (c =? 223) || (c =? 304)
  || between 1024 1119 c.

Definition upper (c : char) : str :=
  if between 97 122 c then [c - 32]
  else if c =? 223 then [83; 83]
  else if between 1072 1103 c then [c - 32]
  else if between 1104 1119 c then [c - 80]
  else [c].

Definition lower (c : char) : str :=
  if between 65 90 c then [c + 32]
  else if c =? 304 then [105; 775]
  else if between 1040 1071 c then [c + 32]
  else if between 1024 1039 c then [c + 80]
  else [c].

Definition title (c : char) : str :=
  if c =? 223 then [83; 115] else upper c.

Definition data : UnicodeData :=
  {| is_whitespace := whitespace;
     is_digit := digit;
     is_cased := cased;
     to_upper := upper;
     to_lower := lower;
     to_title := title |}.

End Ucd.

(* ================================================================== *)
(** ** Normalisation functions *)

Definition kw_employee : str := Eval vm_compute in u "сотрудник".
Definition kw_city : str := Eval vm_compute in u "город".
Definition kw_place : str := Eval vm_compute in u "место".
Definition space : str := [32%N].
Definition period : char := 46%N.

Section Normalizer.

Variable db : UnicodeData.

(** The body of the loop of [normalize_fio]: the word appended to
    [normalized_words]. *)
Definition fio_word (word : str) : Res str :=
  if (length word =? 2)%nat then
    c1 <- getitem word 1 ;;
    if (c1 =? period)%N then
      c0 <- getitem word 0 ;;
      Ok (to_upper db c0 ++ [period])
    else Ok (capitalize db word)
  else Ok (capitalize db word).

Fixpoint fio_loop (words : list str) (normalized_words : list str)
  : Res (list str) :=
  match words with
  | [] => Ok normalized_words
  | word :: rest =>
      w <- fio_word word ;;
      fio_loop rest (normalized_words ++ [w])
  end.

Definition normalize_fio (value : str) : Res str :=
  match value with
  | [] => Ok value
  | _ :: _ =>
      let words := split db value in
      normalized_words <- fio_loop words [] ;;
      Ok (join space normalized_words)
  end.

Definition normalize_location (value : str) : Res str :=
  match value with
  | [] => Ok value
  | _ :: _ => Ok (title db value)
  end.

Definition normalize_sentence (value : str) : Res str :=
  let value := strip db value in
  match value with
  | [] => Ok value
  | _ :: _ =>
      c <- getitem value 0 ;;
      Ok (to_upper db c ++ skipn 1 value)
  end.

Definition normalize_text (value column_name : str) : Res str :=
  match value with
  | [] => Ok value
  | _ :: _ =>
      if contains kw_employee (lower db column_name) then
        normalize_fio value
      else if contains kw_city (lower db column_name)
              || contains kw_place (lower db column_name) then
        normalize_location value
      else normalize_sentence value
  end.

End Normalizer.

(* ================================================================== *)
(** ** Parsing and structural alignment *)

Definition kw_additional : str := Eval vm_compute in u "Additional_Field_".

(** [f"Additional_Field_{i + 1}"] *)
Definition additional_field (i : nat) : str := kw_additional ++ str_of_nat (i + 1).

Section Parser.

Variable db : UnicodeData.

(** One iteration of the parsing loop: the value of [rows] after
    [rows.append(clean_parts)].  [zip] pairs the fields with the
    header names and stops at the shorter of the two. *)
Definition parse_line (rows : list (list str)) (line : str)
  : Res (list (list str)) :=
  let parts := map (strip db) (re_split line) in
  clean_parts <-
    match rows with
    | [] => Ok parts
    | rows0 :: _ =>
        mapM (fun pc => normalize_text db (fst pc) (snd pc))
             (combine parts rows0)
    end ;;
  Ok (rows ++ [clean_parts]).

Fixpoint parse_lines (lines : list str) (rows : list (list str))
  : Res (list (list str)) :=
  match lines with
  | [] => Ok rows
  | line :: rest =>
      rows' <- parse_line rows line ;;
      parse_lines rest rows'
  end.

End Parser.

(** [rows[i]] *)
Definition getrow (rows : list (list str)) (i : nat) : Res (list str) :=
  match nth_error rows i with
  | Some r => Ok r
  | None => Raise IndexError
  end.

(** [max(len(r) for r in rows)] *)
Definition max_len (rows : list (list str)) : Res nat :=
  match rows with
  | [] => Raise (ValueError "max() arg is an empty sequence")
  | r :: rest => Ok (fold_left (fun m r' => Nat.max m (length r')) rest (length r))
  end.

(** [for i in range(len(header), max_cols_found): header.append(...)] *)
Definition extend_header (header : list str) (max_cols_found : nat) : list str :=
  fold_left (fun h i => h ++ [additional_field i])
            (seq (length header) (max_cols_found - length header))
            header.

(** One element of the comprehension that builds [normalized_data]. *)
Definition align_row (header : list str) (r : list str) : list str :=
  if (length r <? length header)%nat
  then r ++ repeat [] (length header - length r)
  else firstn (length header) r.

Definition align_rows (header : list str) (data_rows : list (list str))
  : list (list str) :=
  map (align_row header) data_rows.

(** Step 2 as a function of [rows]: the final header and
    [normalized_data].  In the source [header] is the list object
    [rows[0]], extended in place; [rows] is not read again after the
    loop, and [data_rows] is taken before it. *)
Definition structural_alignment (rows : list (list str))
  : Res (list str * list (list str)) :=
  header <- getrow rows 0 ;;
  let data_rows := skipn 1 rows in
  max_cols_found <- max_len rows ;;
  let header :=
    if (length header <? max_cols_found)%nat
    then extend_header header max_cols_found
    else header in
  Ok (header, align_rows header data_rows).

(* ================================================================== *)
(** ** Deduplication

    [DataFrame.drop_duplicates()] with its default [keep="first"]: a row
    is marked as duplicated when an equal row occurs before it, and the
    marked rows are dropped. *)

Fixpoint duplicated_from (seen : list (list str)) (rows : list (list str))
  : list bool :=
  match rows with
  | [] => []
  | r :: rest => existsb (row_eqb r) seen :: duplicated_from (r :: seen) rest
  end.

Definition duplicated (rows : list (list str)) : list bool :=
  duplicated_from [] rows.

Definition drop_duplicates (rows : list (list str)) : list (list str) :=
  map fst (filter (fun rd => negb (snd rd)) (combine rows (duplicated rows))).

(* ================================================================== *)
(** ** Integrity audit *)

Definition flag_incomplete : str := Eval vm_compute in u "Incomplete Entry".
Definition flag_validation : str := Eval vm_compute in u "Validation Required".
Definition comma_space : str := Eval vm_compute in u ", ".

Section Auditor.

Variable db : UnicodeData.

(** The [for val in row.values] loop; returning without a recursive
    call is the [break]. *)
Fixpoint audit_scan (values : list str) (flags : list str) : list str :=
  match values with
  | [] => flags
  | val :: rest =>
      let s := val in
      if isdigit db s then audit_scan rest flags
      else if (0 <? length s)%nat && (length s <? 2)%nat
           then flags ++ [flag_validation]
           else audit_scan rest flags
  end.

Definition audit_integrity (row : list str) : str :=
  let flags := [] in
  let flags :=
    if existsb (str_eqb []) row then flags ++ [flag_incomplete] else flags in
  let flags := audit_scan row flags in
  join comma_space flags.

End Auditor.

(* ================================================================== *)
(** ** The run *)

(** A data frame: the column labels and the rows. *)
Record Frame : Type := {
  columns : list str;
  records : list (list str)
}.

Definition audit_flag_column : str := Eval vm_compute in u "Audit_Flag".

(** A row with [v] put at every position whose column label is [name]. *)
Fixpoint overwrite (labels : list str) (name : str) (row : list str) (v : str)
  : list str :=
  match labels, row with
  | label :: labels', x :: row' =>
      (if str_eqb label name then v else x) :: overwrite labels' name row' v
  | _, _ => row
  end.

(** [df[name] = values]: a new last column when no column is labelled
    [name]; otherwise the columns so labelled are overwritten. *)
Definition set_column (df : Frame) (name : str) (values : list str) : Frame :=
  if existsb (str_eqb name) (columns df) then
    {| columns := columns df;
       records := map (fun rv => overwrite (columns df) name (fst rv) (snd rv))
                      (combine (records df) values) |}
  else
    {| columns := columns df ++ [name];
       records := map (fun rv => fst rv ++ [snd rv])
                      (combine (records df) values) |}.

(** What opening a listed path and reading it as UTF-8 text gives: an
    error of the operating system (the path is a directory, or may not
    be read), a decoding error, or the decoded text, with line ends
    already translated to U+000A. *)
Inductive file_content : Type :=
| Unreadable (class message : string)
| Undecodable
| Text (s : str).

(** The lines the run appends to the log (without their time stamp) and
    prints. *)
Inductive log_entry : Type :=
| LogStarted
| LogTarget (name : str)
| LogExtending (max_cols_found : nat)
| LogDuplicates (removed : nat)
| LogCompleted
| LogTraceback (e : exn).

Inductive console_line : Type :=
| PrintComplete (n : nat)
| PrintCritical (e : exn).

(** An output file: not written, written in full, or left behind by a
    call that raised while or after writing. *)
Inductive file_state : Type :=
| NotWritten
| Written (df : Frame)
| PartlyWritten (df : Frame).

(** How a library call that writes a file ends: it returns; or it
    raises an exception of some class, with some message, before
    anything is written or after. *)
Inductive write_outcome : Type :=
| Returns
| RaisesBefore (class message : string)
| RaisesAfter (class message : string).

(** What the program cannot decide: how the export calls of pandas and
    xlsxwriter and the launcher of the operating system end.
    [csv_outcome] is [df.to_csv] (line 177); [excel_outcome] is the
    [with pd.ExcelWriter] block (lines 179-184), which writes the sheet
    and then sets the column widths, and may raise there after the
    sheet is written (line 183, for instance on repeated column labels);
    [open_outcome] is [open_file] (lines 46-53), [None] when it
    returns. *)
Record Platform : Type := {
  csv_outcome : Frame -> write_outcome;
  excel_outcome : Frame -> write_outcome;
  open_outcome : option (string * string)
}.

(** What the run reads and writes: the files [RAW_FILE_DIR.glob("*.*")]
    lists, by name, in the order of the listing; the platform; the log;
    the CSV and the spreadsheet; the console; and whether the launcher
    has been run on the spreadsheet.  Writing to the log and printing
    are taken to succeed. *)
Record World : Type := {
  raw_data : list (str * file_content);
  platform : Platform;
  log_file : list log_entry;
  output_csv : file_state;
  output_excel : file_state;
  console : list console_line;
  opened : bool
}.

(** Computations that change the world and may raise. *)
Definition M (A : Type) : Type := World -> Res A * World.

Definition ret {A : Type} (a : A) : M A := fun w => (Ok a, w).

Definition raise {A : Type} (e : exn) : M A := fun w => (Raise e, w).

Definition lift {A : Type} (r : Res A) : M A := fun w => (r, w).

Definition bindM {A B : Type} (m : M A) (k : A -> M B) : M B :=
  fun w =>
    match m w with
    | (Ok a, w') => k a w'
    | (Raise e, w') => (Raise e, w')
    end.

Notation "'let!' x ':=' m 'in' k" := (bindM m (fun x => k))
  (at level 10, x name, m at level 100, k at level 200).

Definition write_log (entry : log_entry) : M unit :=
  fun w =>
    (Ok tt,
     {| raw_data := raw_data w; platform := platform w;
        log_file := log_file w ++ [entry];
        output_csv := output_csv w; output_excel := output_excel w;
        console := console w; opened := opened w |}).

Definition print (line : console_line) : M unit :=
  fun w =>
    (Ok tt,
     {| raw_data := raw_data w; platform := platform w;
        log_file := log_file w;
        output_csv := output_csv w; output_excel := output_excel w;
        console := console w ++ [line]; opened := opened w |}).

Definition glob : M (list (str * file_content)) :=
  fun w => (Ok (raw_data w), w).

Definition put_csv (w : World) (f : file_state) : World :=
  {| raw_data := raw_data w; platform := platform w;
     log_file := log_file w;
     output_csv := f; output_excel := output_excel w;
     console := console w; opened := opened w |}.

Definition put_excel (w : World) (f : file_state) : World :=
  {| raw_data := raw_data w; platform := platform w;
     log_file := log_file w;
     output_csv := output_csv w; output_excel := f;
     console := console w; opened := opened w |}.

(** [df.to_csv(OUTPUT_CSV, ...)] *)
Definition to_csv (df : Frame) : M unit :=
  fun w =>
    match csv_outcome (platform w) df with
    | Returns => (Ok tt, put_csv w (Written df))
    | RaisesBefore class message => (Raise (LibraryError class message), w)
    | RaisesAfter class message =>
        (Raise (LibraryError class message), put_csv w (PartlyWritten df))
    end.

(** The [with pd.ExcelWriter(OUTPUT_EXCEL, ...)] block. *)
Definition to_excel (df : Frame) : M unit :=
  fun w =>
    match excel_outcome (platform w) df with
    | Returns => (Ok tt, put_excel w (Written df))
    | RaisesBefore class message => (Raise (LibraryError class message), w)
    | RaisesAfter class message =>
        (Raise (LibraryError class message), put_excel w (PartlyWritten df))
    end.

(** [open_file(OUTPUT_EXCEL)] *)
Definition open_file : M unit :=
  fun w =>
    match open_outcome (platform w) with
    | None =>
        (Ok tt,
         {| raw_data := raw_data w; platform := platform w;
            log_file := log_file w;
            output_csv := output_csv w; output_excel := output_excel w;
            console := console w; opened := true |})
    | Some (class, message) => (Raise (LibraryError class message), w)
    end.

(** Iterating over the open file: each line with its terminator, the
    last one possibly without. *)
Fixpoint readlines_from (cur : str) (text : str) : list str :=
  match text with
  | [] => match cur with [] => [] | _ :: _ => [cur] end
  | c :: rest =>
      if (c =? 10)%N then (cur ++ [c]) :: readlines_from [] rest
      else readlines_from (cur ++ [c]) rest
  end.

Definition read_text (f : file_content) : Res (list str) :=
  match f with
  | Unreadable class message => Raise (LibraryError class message)
  | Undecodable => Raise UnicodeDecodeError
  | Text s => Ok (readlines_from [] s)
  end.

Definition is_empty {A : Type} (l : list A) : bool :=
  match l with [] => true | _ :: _ => false end.

Section Run.

Variable db : UnicodeData.

(** [[line.strip() for line in f if line.strip()]] *)
Definition nonblank_lines (raw : list str) : list str :=
  map (strip db) (filter (fun line => negb (is_empty (strip db line))) raw).

(** Step 5, the export (lines 176-188). *)
Definition export (df : Frame) : M unit :=
  let! _ := to_csv df in
  let! _ := to_excel df in
  let! _ := write_log LogCompleted in
  let! _ := print (PrintComplete (length (records df))) in
  open_file.

(** The body of the [try] block. *)
Definition try_body : M unit :=
  let! input_files := glob in
  match input_files with
  | [] => raise (FileNotFoundError "No files found in raw_data directory.")
  | target_file :: _ =>
      let! _ := write_log (LogTarget (fst target_file)) in
      let! raw := lift (read_text (snd target_file)) in
      let lines := nonblank_lines raw in
      if is_empty lines then raise (ValueError "Input file contains no data.")
      else
        let! rows := lift (parse_lines db lines []) in
        let! header := lift (getrow rows 0) in
        let data_rows := skipn 1 rows in
        let! max_cols_found := lift (max_len rows) in
        let! header :=
          (if (length header <? max_cols_found)%nat
           then let! _ := write_log (LogExtending max_cols_found) in
                ret (extend_header header max_cols_found)
           else ret header) in
        let normalized_data := align_rows header data_rows in
        let df := {| columns := header; records := normalized_data |} in
        let initial_count := length (records df) in
        let df := {| columns := columns df;
                     records := drop_duplicates (records df) |} in
        let! _ := write_log (LogDuplicates (initial_count - length (records df))) in
        let df :=
          set_column df audit_flag_column
                     (map (audit_integrity db) (records df)) in
        export df
  end.

(** [run_data_processing]: the [try] block under its
    [except Exception] handler.  The result is the exception the
    handler caught, if any. *)
Definition run_data_processing (w : World) : option exn * World :=
  match (let! _ := write_log LogStarted in try_body) w with
  | (Ok _, w') => (None, w')
  | (Raise e, w') =>
      (Some e, snd ((let! _ := write_log (LogTraceback e) in
                    print (PrintCritical e)) w'))
  end.

End Run.

(** A platform on which every call returns, and a fresh world with the
    given listing on it. *)
Definition kind_platform : Platform :=
  {| csv_outcome := fun _ => Returns;
     excel_outcome := fun _ => Returns;
     open_outcome := None |}.

Definition world0 (files : list (str * file_content)) : World :=
  {| raw_data := files; platform := kind_platform; log_file := [];
     output_csv := NotWritten; output_excel := NotWritten;
     console := []; opened := false |}.

(* ================================================================== *)
(** ** Definitions used to state the properties *)

(** The three modes of the dispatcher and the mode a column name
    selects. *)
Inductive mode : Type :=
| PersonName
| Location
| Sentence.

Definition dispatch (db : UnicodeData) (column_name : str) : mode :=
  if contains kw_employee (lower db column_name) then PersonName
  else if contains kw_city (lower db column_name)
          || contains kw_place (lower db column_name) then Location
  else Sentence.

(** A name token as the specification describes its normalisation: an
    initial (two characters, the second a period) gets its letter
    upper-cased and keeps the period; any other token is
    title-capitalised. *)
Definition spec_fio_token (db : UnicodeData) (token : str) : str :=
  match token with
  | [c0; c1] =>
      if (c1 =? period)%N then to_upper db c0 ++ [period]
      else capitalize db token
  | _ => capitalize db token
  end.

(** Tokens when every single whitespace character is a separator, so
    that consecutive spaces delimit empty tokens. *)
Fixpoint spec_tokens_from (db : UnicodeData) (cur : str) (s : str) : list str :=
  match s with
  | [] => [cur]
  | c :: rest =>
      if is_whitespace db c then cur :: spec_tokens_from db [] rest
      else spec_tokens_from db (cur ++ [c]) rest
  end.

Definition spec_tokens (db : UnicodeData) (s : str) : list str :=
  spec_tokens_from db [] s.

(** A token of [split]: not empty and free of whitespace. *)
Definition is_token (db : UnicodeData) (t : str) : Prop :=
  t <> [] /\ forallb (fun c => negb (is_whitespace db c)) t = true.

(** Normalising the result of a normalisation again. *)
Definition normalize_twice (db : UnicodeData) (value column_name : str) : Res str :=
  once <- normalize_text db value column_name ;;
  normalize_text db once column_name.

(** What sentence mode needs of the uppercase table, for characters that
    are not whitespace: the mapping is not empty, contains no whitespace,
    and its first character is its own uppercase. *)
Record UpperLaws (db : UnicodeData) : Prop := {
  upper_nonempty :
    forall c, is_whitespace db c = false -> to_upper db c <> [];
  upper_no_whitespace :
    forall c, is_whitespace db c = false ->
              forallb (fun d => negb (is_whitespace db d)) (to_upper db c) = true;
  upper_head_fixed :
    forall c d r, is_whitespace db c = false ->
                  to_upper db c = d :: r -> to_upper db d = [d]
}.

(** A character whose title and lowercase mappings are left alone by
    [title] and end in a character that is cased exactly when the
    character itself is. *)
Definition case_stable (db : UnicodeData) (c : char) : bool :=
  let t := to_title db c in
  let l := to_lower db c in
  negb (is_empty t) && negb (is_empty l)
  && str_eqb (title_from db false t) t
  && str_eqb (title_from db true l) l
  && Bool.eqb (is_cased db (last t c)) (is_cased db c)
  && Bool.eqb (is_cased db (last l c)) (is_cased db c).

(** Steps 1 and 2 on the lines of the input. *)
Definition tabulate (db : UnicodeData) (lines : list str)
  : Res (list str * list (list str)) :=
  rows <- parse_lines db lines [] ;;
  structural_alignment rows.

(** The rows that equal no earlier row, in their order. *)
Definition spec_keep_first (rows : list (list str)) : list (list str) :=
  map snd
      (filter (fun ir => negb (existsb (row_eqb (snd ir)) (firstn (fst ir) rows)))
              (combine (seq 0 (length rows)) rows)).

(** The two triggers of the audit as the specification words them. *)
Definition spec_incomplete (row : list str) : bool :=
  existsb (fun s => is_empty s) row.

Definition spec_needs_validation (db : UnicodeData) (row : list str) : bool :=
  existsb (fun s => negb (forallb (is_digit db) s)
                    && (0 <? length s)%nat && (length s <? 2)%nat) row.

Definition spec_flags (db : UnicodeData) (row : list str) : list str :=
  (if spec_incomplete row then [flag_incomplete] else [])
  ++ (if spec_needs_validation db row then [flag_validation] else []).

(** The failures the specification calls input errors: the two explicit
    [raise] statements of the run. *)
Definition no_files_error : exn :=
  FileNotFoundError "No files found in raw_data directory.".

Definition no_data_error : exn :=
  ValueError "Input file contains no data.".

Definition is_input_error (e : exn) : bool :=
  match e with
  | FileNotFoundError message =>
      String.eqb message "No files found in raw_data directory."
  | ValueError message =>
      String.eqb message "Input file contains no data."
  | _ => false
  end.

(** Every line of the text is blank. *)
Definition no_usable_lines (db : UnicodeData) (s : str) : Prop :=
  Forall (fun line => strip db line = []) (readlines_from [] s).

(** The string [normalize_text] returns. *)
Definition normalize_value (db : UnicodeData) (value column_name : str) : str :=
  match normalize_text db value column_name with
  | Ok s => s
  | Raise _ => value
  end.

(** The stripped fields of a line, and the row parsed from a data line
    under a header. *)
Definition fields (db : UnicodeData) (line : str) : list str :=
  map (strip db) (re_split line).

Definition parsed_row (db : UnicodeData) (header : list str) (line : str)
  : list str :=
  map (fun pc => normalize_value db (fst pc) (snd pc))
      (combine (fields db line) header).

(** The largest field count of a non-empty list of rows. *)
Definition widest (first : list str) (others : list (list str)) : nat :=
  fold_left (fun m r => Nat.max m (length r)) others (length first).

(** The records a run has after deduplication, and the frame it
    exports, for the lines of its input. *)
Definition cleaned (db : UnicodeData) (first : str) (rest : list str)
  : list (list str) :=
  drop_duplicates
    (align_rows (fields db first) (map (parsed_row db (fields db first)) rest)).

Definition frame_of (db : UnicodeData) (first : str) (rest : list str) : Frame :=
  set_column {| columns := fields db first; records := cleaned db first rest |}
             audit_flag_column
             (map (audit_integrity db) (cleaned db first rest)).

(** A world with entries appended to the log, or lines to the console;
    what the handler of the run makes of the outcome of the [try]
    block. *)
Definition logged (w : World) (entries : list log_entry) : World :=
  {| raw_data := raw_data w; platform := platform w;
     log_file := log_file w ++ entries;
     output_csv := output_csv w; output_excel := output_excel w;
     console := console w; opened := opened w |}.

Definition printed (w : World) (lines : list console_line) : World :=
  {| raw_data := raw_data w; platform := platform w;
     log_file := log_file w;
     output_csv := output_csv w; output_excel := output_excel w;
     console := console w ++ lines; opened := opened w |}.

Definition handled (r : Res unit * World) : option exn * World :=
  match r with
  | (Ok _, w') => (None, w')
  | (Raise e, w') => (Some e, printed (logged w' [LogTraceback e]) [PrintCritical e])
  end.

(** The token as C5 words it: the first character upper-cased. *)
Definition spec_upper_first_token (db : UnicodeData) (token : str) : str :=
  match token with
  | [c0; c1] =>
      if (c1 =? period)%N then to_upper db c0 ++ [period]
      else to_upper db c0 ++ lower db [c1]
  | c :: rest => to_upper db c ++ lower db rest
  | [] => []
  end.

(** A string without U+03A3, the one character whose lower-casing
    depends on its context in Python. *)
Definition sigma_free (s : str) : bool :=
  forallb (fun c => negb (c =? 931)%N) s.

(** The number of separators of a line. *)
Definition count_seps (line : str) : nat := length (filter is_sep line).

(** What the whitespace handling of person-name mode needs of the
    tables: U+0020 is whitespace, the period is not, and the case
    mappings of a character that is not whitespace are not empty and
    hold no whitespace. *)
Record MappingLaws (db : UnicodeData) : Prop := {
  space_is_whitespace : is_whitespace db 32%N = true;
  period_not_whitespace : is_whitespace db period = false;
  upper_is_token :
    forall c, is_whitespace db c = false -> is_token db (to_upper db c);
  title_is_token :
    forall c, is_whitespace db c = false -> is_token db (to_title db c);
  lower_is_token :
    forall c, is_whitespace db c = false -> is_token db (to_lower db c)
}.

(** A character with one-character case mappings that are fixed by the
    mapping that produced them, and whose lowercase is the period only
    if it is the period itself. *)
Definition fio_stable (db : UnicodeData) (c : char) : bool :=
  match to_upper db c, to_title db c, to_lower db c with
  | [up], [t], [l] =>
      str_eqb (to_upper db up) [up]
      && str_eqb (to_title db t) [t]
      && str_eqb (to_lower db l) [l]
      && (negb (l =? period)%N || (c =? period)%N)
  | _, _, _ => false
  end.

(** The same world with another listing of the input directory. *)
Definition with_files (w : World) (files : list (str * file_content)) : World :=
  {| raw_data := files;
     platform := platform w;
     log_file := log_file w;
     output_csv := output_csv w;
     output_excel := output_excel w;
     console := console w;
     opened := opened w |}.

(* ================================================================== *)
(** * Properties *)

(** ** The exception monad *)

Lemma mapM_total {A B : Type} (f : A -> Res B) (g : A -> B) (xs : list A) :
  (forall x, In x xs -> f x = Ok (g x)) ->
  mapM f xs = Ok (map g xs).
Proof.
  induction xs as [|x rest IH]; intros Hf; simpl.
  - reflexivity.
  - rewrite (Hf x (or_introl eq_refl)). simpl.
    rewrite IH by (intros y Hy; apply Hf; right; exact Hy).
    reflexivity.
Qed.

(** ** Strings *)

Lemma str_eqb_eq (a b : str) : str_eqb a b = true <-> a = b.
Proof.
  unfold str_eqb. destruct (list_eq_dec N.eq_dec a b); split; intros; congruence.
Qed.

Lemma str_eqb_refl (a : str) : str_eqb a a = true.
Proof. apply str_eqb_eq. reflexivity. Qed.

Lemma row_eqb_eq (a b : list str) : row_eqb a b = true <-> a = b.
Proof.
  unfold row_eqb.
  destruct (list_eq_dec (list_eq_dec N.eq_dec) a b); split; intros; congruence.
Qed.

Section StringFacts.

Variable db : UnicodeData.

Lemma lstrip_all_whitespace (s : str) :
  forallb (is_whitespace db) s = true -> lstrip db s = [].
Proof.
  induction s as [|c rest IH]; simpl; intros H.
  - reflexivity.
  - apply andb_prop in H. destruct H as [Hc Hrest].
    rewrite Hc. apply IH. exact Hrest.
Qed.

Lemma strip_all_whitespace (s : str) :
  forallb (is_whitespace db) s = true -> strip db s = [].
Proof.
  intros H. unfold strip, rstrip.
  rewrite (lstrip_all_whitespace s H). reflexivity.
Qed.

Lemma lstrip_head (c : char) (s : str) :
  is_whitespace db c = false -> lstrip db (c :: s) = c :: s.
Proof. intros H. simpl. rewrite H. reflexivity. Qed.

(** The first character of a stripped string is not whitespace. *)
Lemma lstrip_starts (s : str) (c : char) (r : str) :
  lstrip db s = c :: r -> is_whitespace db c = false.
Proof.
  induction s as [|a rest IH]; simpl; intros H.
  - discriminate.
  - destruct (is_whitespace db a) eqn:Ha.
    + apply IH. exact H.
    + congruence.
Qed.

Lemma lstrip_suffix (s : str) : exists p, s = p ++ lstrip db s.
Proof.
  induction s as [|a rest [p Hp]]; simpl.
  - exists []. reflexivity.
  - destruct (is_whitespace db a).
    + exists (a :: p). simpl. congruence.
    + exists []. reflexivity.
Qed.

Lemma rstrip_app_nonspace (s : str) (c : char) :
  is_whitespace db c = false -> rstrip db (s ++ [c]) = s ++ [c].
Proof.
  intros H. unfold rstrip. rewrite rev_app_distr. simpl. rewrite H.
  simpl. rewrite rev_involutive. reflexivity.
Qed.

(** The last character of a right-stripped string is not whitespace. *)
Lemma rstrip_ends (s : str) (p : str) (c : char) :
  rstrip db s = p ++ [c] -> is_whitespace db c = false.
Proof.
  unfold rstrip. intros H.
  apply (f_equal (@rev char)) in H.
  rewrite rev_involutive, rev_app_distr in H. simpl in H.
  apply lstrip_starts in H. exact H.
Qed.

(** [rstrip] removes a suffix. *)
Lemma rstrip_prefix (s : str) : exists q, s = rstrip db s ++ q.
Proof.
  unfold rstrip. destruct (lstrip_suffix (rev s)) as [p Hp].
  exists (rev p).
  rewrite <- rev_app_distr, <- Hp, rev_involutive. reflexivity.
Qed.

Lemma strip_starts (s : str) (c : char) (r : str) :
  strip db s = c :: r -> is_whitespace db c = false.
Proof.
  unfold strip. intros H.
  destruct (rstrip_prefix (lstrip db s)) as [q Hq].
  rewrite H in Hq. simpl in Hq.
  apply (lstrip_starts s _ _ Hq).
Qed.

End StringFacts.

(** ** The normaliser *)

Section NormalizerFacts.

Variable db : UnicodeData.

Lemma fio_word_ok (word : str) :
  fio_word db word = Ok (spec_fio_token db word).
Proof.
  unfold fio_word, spec_fio_token.
  destruct word as [|c0 [|c1 [|c2 r]]]; simpl; try reflexivity.
  destruct (c1 =? period)%N; reflexivity.
Qed.

Lemma fio_loop_ok (words normalized_words : list str) :
  fio_loop db words normalized_words
  = Ok (normalized_words ++ map (spec_fio_token db) words).
Proof.
  revert normalized_words.
  induction words as [|w rest IH]; intros acc; simpl.
  - rewrite app_nil_r. reflexivity.
  - rewrite fio_word_ok. simpl. rewrite IH, <- app_assoc. reflexivity.
Qed.

Lemma normalize_fio_ok (value : str) :
  normalize_fio db value
  = Ok (join space (map (spec_fio_token db) (split db value))).
Proof.
  unfold normalize_fio. destruct value as [|c r].
  - reflexivity.
  - rewrite fio_loop_ok. reflexivity.
Qed.

Lemma normalize_sentence_ok (value : str) :
  normalize_sentence db value
  = Ok (match strip db value with
        | [] => []
        | c :: r => to_upper db c ++ r
        end).
Proof.
  unfold normalize_sentence. destruct (strip db value); reflexivity.
Qed.

Lemma normalize_text_dispatch (value column_name : str) :
  normalize_text db value column_name
  = match value with
    | [] => Ok []
    | _ :: _ =>
        match dispatch db column_name with
        | PersonName => normalize_fio db value
        | Location => normalize_location db value
        | Sentence => normalize_sentence db value
        end
    end.
Proof.
  unfold normalize_text, dispatch. destruct value as [|c r]; [reflexivity|].
  destruct (contains kw_employee (lower db column_name)); [reflexivity|].
  destruct (contains kw_city (lower db column_name)
            || contains kw_place (lower db column_name)); reflexivity.
Qed.

Lemma normalize_text_total (value column_name : str) :
  exists s, normalize_text db value column_name = Ok s.
Proof.
  rewrite normalize_text_dispatch.
  destruct value as [|c r]; [eexists; reflexivity|].
  destruct (dispatch db column_name).
  - rewrite normalize_fio_ok. eexists; reflexivity.
  - simpl. eexists; reflexivity.
  - rewrite normalize_sentence_ok. eexists; reflexivity.
Qed.

Lemma split_from_tokens (s cur : str) :
  forallb (fun c => negb (is_whitespace db c)) cur = true ->
  Forall (is_token db) (split_from db cur s).
Proof.
  revert cur. induction s as [|c rest IH]; intros cur Hcur; simpl.
  - destruct cur as [|a cur']; constructor; [|constructor].
    split; [discriminate | exact Hcur].
  - destruct (is_whitespace db c) eqn:Hc.
    + destruct cur as [|a cur'].
      * apply IH. reflexivity.
      * constructor.
        -- split; [discriminate | exact Hcur].
        -- apply IH. reflexivity.
    + apply IH. rewrite forallb_app, Hcur. simpl. rewrite Hc. reflexivity.
Qed.

Lemma split_tokens (s : str) : Forall (is_token db) (split db s).
Proof. apply split_from_tokens. reflexivity. Qed.

Lemma split_from_concat (s cur : str) :
  concat (split_from db cur s)
  = cur ++ filter (fun c => negb (is_whitespace db c)) s.
Proof.
  revert cur. induction s as [|c rest IH]; intros cur; simpl.
  - destruct cur; simpl; rewrite ?app_nil_r; reflexivity.
  - destruct (is_whitespace db c) eqn:Hc; simpl.
    + destruct cur as [|a cur']; simpl; rewrite IH; reflexivity.
    + rewrite IH, <- app_assoc. reflexivity.
Qed.

End NormalizerFacts.

(** C5, as the code has it.  In person-name mode a non-empty value
    without U+03A3 is split on whitespace into tokens (non-empty, free
    of whitespace, together holding the value's non-whitespace
    characters in order); a token of two characters ending in a period
    becomes its first character upper-cased followed by the period, any
    other token gets its first character title-cased and the rest
    lower-cased, which is the first character upper-cased wherever the
    titlecase and the uppercase of that character agree; and the tokens
    are joined with single spaces.  In particular "петров п. п."
    becomes "Петров П. П.". *)
Theorem normalize_fio_spec :
  (forall (db : UnicodeData) (value column_name : str),
      value <> [] ->
      sigma_free value = true ->
      dispatch db column_name = PersonName ->
      Forall (is_token db) (split db value)
      /\ concat (split db value)
         = filter (fun c => negb (is_whitespace db c)) value
      /\ normalize_text db value column_name
         = Ok (join space (map (spec_fio_token db) (split db value))))
  /\ (forall (db : UnicodeData) (c0 c : char) (rest : str),
        spec_fio_token db [c0; period] = to_upper db c0 ++ [period]
        /\ (rest <> [period] ->
            spec_fio_token db (c :: rest) = to_title db c ++ lower db rest)
        /\ (to_title db c = to_upper db c ->
            spec_fio_token db (c :: rest)
            = spec_upper_first_token db (c :: rest)))
  /\ normalize_text Ucd.data (u "петров п. п.") (u "Сотрудник")
     = Ok (u "Петров П. П.").
Proof.
  split; [|split].
  - intros db value column_name Hne _ Hmode.
    split; [apply split_tokens|].
    split; [apply (split_from_concat db value [])|].
    rewrite normalize_text_dispatch, Hmode.
    destruct value as [|c r]; [congruence|].
    apply normalize_fio_ok.
  - intros db c0 c rest. split; [|split].
    + reflexivity.
    + intros Hrest. unfold spec_fio_token.
      destruct rest as [|c1 [|c2 r]]; try reflexivity.
      destruct (N.eqb_spec c1 period) as [->|Hc1]; [congruence | reflexivity].
    + intros Hsame. unfold spec_fio_token, spec_upper_first_token, capitalize.
      rewrite Hsame.
      destruct rest as [|c1 [|c2 r]]; reflexivity.
  - vm_compute. reflexivity.
Qed.

Lemma normalize_fio_spec_witness :
  u "иванов иван иванович" <> []
  /\ sigma_free (u "иванов иван иванович") = true
  /\ dispatch Ucd.data (u "ФИО Сотрудника") = PersonName
  /\ normalize_text Ucd.data (u "иванов иван иванович") (u "ФИО Сотрудника")
     = Ok (u "Иванов Иван Иванович").
Proof.
  split; [vm_compute; discriminate|].
  split; [vm_compute; reflexivity|].
  split; [vm_compute; reflexivity|].
  refine (eq_trans
            (proj2 (proj2 (proj1 normalize_fio_spec Ucd.data
                             (u "иванов иван иванович") (u "ФИО Сотрудника") _ _ _)))
            _).
  - vm_compute; discriminate.
  - vm_compute; reflexivity.
  - vm_compute; reflexivity.
  - vm_compute; reflexivity.
Defined.

(** C5 as stated fails at the token "ßa": its first character is
    title-cased to "Ss", not upper-cased to "SS". *)
Lemma first_character_is_title_cased :
  dispatch Ucd.data (u "Сотрудник") = PersonName
  /\ split Ucd.data [223; 97]%N = [[223; 97]%N]
  /\ normalize_text Ucd.data [223; 97]%N (u "Сотрудник") = Ok (u "Ssa")
  /\ join space (map (spec_upper_first_token Ucd.data) (split Ucd.data [223; 97]%N))
     = u "SSa"
  /\ normalize_text Ucd.data [223; 97]%N (u "Сотрудник")
     <> Ok (join space (map (spec_upper_first_token Ucd.data)
                            (split Ucd.data [223; 97]%N))).
Proof.
  split; [vm_compute; reflexivity|].
  split; [vm_compute; reflexivity|].
  split; [vm_compute; reflexivity|].
  split; [vm_compute; reflexivity|].
  vm_compute. discriminate.
Qed.

(** C8, as the code has it.  Normalisation returns a string for every
    value and column name and never raises.  [split] treats a run of
    whitespace as one separator, so no empty token arises from
    consecutive spaces; the step applied to each word would map a
    zero-length word to itself without raising. *)
Theorem normalize_text_never_raises :
  forall (db : UnicodeData) (value column_name : str),
    (exists s, normalize_text db value column_name = Ok s)
    /\ Forall (is_token db) (split db value)
    /\ fio_word db [] = Ok [].
Proof.
  intros db value column_name.
  split; [apply normalize_text_total|].
  split; [apply split_tokens | reflexivity].
Qed.

(** C8 as stated fails at "иванов  иван": the two consecutive spaces
    yield no empty token, and the result has one space where a
    zero-length word between them would leave two. *)
Lemma consecutive_spaces_no_empty_token :
  contains (u "  ") (u "иванов  иван") = true
  /\ split Ucd.data (u "иванов  иван") = [u "иванов"; u "иван"]
  /\ spec_tokens Ucd.data (u "иванов  иван") = [u "иванов"; []; u "иван"]
  /\ normalize_text Ucd.data (u "иванов  иван") (u "Сотрудник")
     = Ok (u "Иванов Иван")
  /\ normalize_text Ucd.data (u "иванов  иван") (u "Сотрудник")
     <> Ok (join space (map (spec_fio_token Ucd.data)
                            (spec_tokens Ucd.data (u "иванов  иван")))).
Proof.
  repeat split; try (vm_compute; reflexivity).
  vm_compute. discriminate.
Qed.

(** ** Idempotence *)

Section Idempotence.

Variable db : UnicodeData.

Lemma forallb_last (f : char -> bool) (s p : str) (z : char) :
  forallb f s = true -> s = p ++ [z] -> f z = true.
Proof.
  intros H ->. rewrite forallb_app in H.
  apply andb_prop in H. destruct H as [_ H]. simpl in H.
  rewrite andb_true_r in H. exact H.
Qed.

(** A string that neither starts nor ends with whitespace is left alone
    by [strip]. *)
Lemma strip_fixed (d : char) (p : str) (z : char) (s : str) :
  s = p ++ [z] ->
  (exists t, s = d :: t) ->
  is_whitespace db d = false ->
  is_whitespace db z = false ->
  strip db s = s.
Proof.
  intros Hs [t Ht] Hd Hz. unfold strip.
  rewrite Ht, (lstrip_head db d t Hd), <- Ht, Hs.
  apply rstrip_app_nonspace. exact Hz.
Qed.

Lemma sentence_step_fixed (a : char) (r : str) (value : str) :
  UpperLaws db ->
  strip db value = a :: r ->
  strip db (to_upper db a ++ r) = to_upper db a ++ r
  /\ exists d t, to_upper db a = d :: t /\ to_upper db d = [d].
Proof.
  intros L Hstrip.
  pose proof (strip_starts db value _ _ Hstrip) as Ha.
  destruct (to_upper db a) as [|d t] eqn:Hup.
  { exfalso. exact (upper_nonempty db L a Ha Hup). }
  pose proof (upper_no_whitespace db L a Ha) as Hnw. rewrite Hup in Hnw.
  assert (Hd : is_whitespace db d = false).
  { simpl in Hnw. apply andb_prop in Hnw. destruct Hnw as [Hd _].
    apply negb_true_iff in Hd. exact Hd. }
  split; [|exists d, t; split; [reflexivity | exact (upper_head_fixed db L a d t Ha Hup)]].
  destruct (@exists_last _ (a :: r)) as [p [z Hpz]]; [discriminate|].
  assert (Hz : is_whitespace db z = false).
  { unfold strip in Hstrip. rewrite Hpz in Hstrip.
    exact (rstrip_ends db _ _ _ Hstrip). }
  destruct r as [|b r'].
  - (* the stripped value is the single character [a] *)
    rewrite app_nil_r.
    destruct (@exists_last _ (d :: t)) as [q [y Hqy]]; [discriminate|].
    apply (strip_fixed d q y); [exact Hqy | eauto | exact Hd |].
    apply negb_true_iff.
    exact (forallb_last (fun c => negb (is_whitespace db c)) _ _ _ Hnw Hqy).
  - destruct (@exists_last _ (b :: r')) as [q [y Hqy]]; [discriminate|].
    assert (y = z).
    { rewrite Hqy in Hpz. change (a :: q ++ [y]) with ((a :: q) ++ [y]) in Hpz.
      apply app_inj_tail in Hpz. tauto. }
    subst y. rewrite Hqy.
    apply (strip_fixed d ((d :: t) ++ q) z).
    + rewrite <- app_assoc. reflexivity.
    + exists (t ++ q ++ [z]). reflexivity.
    + exact Hd.
    + exact Hz.
Qed.

Lemma normalize_sentence_idempotent (value once : str) :
  UpperLaws db ->
  normalize_sentence db value = Ok once ->
  normalize_sentence db once = Ok once.
Proof.
  intros L. rewrite !normalize_sentence_ok.
  destruct (strip db value) as [|a r] eqn:Hstrip; intros H; inversion H; subst once.
  - reflexivity.
  - destruct (sentence_step_fixed a r value L Hstrip) as [Hfix [d [t [Hup Hd]]]].
    rewrite Hfix, Hup. simpl. rewrite Hd. reflexivity.
Qed.

Lemma title_from_app (s1 s2 : str) (b : bool) (d : char) :
  s1 <> [] ->
  title_from db b (s1 ++ s2)
  = title_from db b s1 ++ title_from db (is_cased db (last s1 d)) s2.
Proof.
  revert b. induction s1 as [|a rest IH]; intros b Hne; [congruence|].
  destruct rest as [|a' rest'].
  - simpl. rewrite app_nil_r. reflexivity.
  - change ((a :: a' :: rest') ++ s2) with (a :: ((a' :: rest') ++ s2)).
    cbn [title_from]. rewrite IH by discriminate.
    rewrite <- app_assoc. reflexivity.
Qed.

Lemma case_stable_step (b : bool) (c : char) :
  case_stable db c = true ->
  let m := if b then to_lower db c else to_title db c in
  m <> []
  /\ title_from db b m = m
  /\ is_cased db (last m c) = is_cased db c.
Proof.
  unfold case_stable. intros H.
  repeat (apply andb_prop in H; destruct H as [H ?]).
  apply negb_true_iff in H.
  repeat match goal with
         | X : negb _ = true |- _ => apply negb_true_iff in X
         | X : str_eqb _ _ = true |- _ => apply str_eqb_eq in X
         | X : Bool.eqb _ _ = true |- _ => apply eqb_prop in X
         end.
  destruct b; simpl; repeat split; try assumption.
  - intros E. rewrite E in *. discriminate.
  - intros E. rewrite E in *. discriminate.
Qed.

Lemma title_from_idempotent (s : str) (b : bool) :
  forallb (case_stable db) s = true ->
  title_from db b (title_from db b s) = title_from db b s.
Proof.
  revert b. induction s as [|c rest IH]; intros b H; [reflexivity|].
  simpl in H. apply andb_prop in H. destruct H as [Hc Hrest].
  destruct (case_stable_step b c Hc) as [Hne [Hfix Hlast]].
  cbn [title_from].
  rewrite (title_from_app _ _ _ c Hne), Hfix, Hlast, (IH _ Hrest).
  reflexivity.
Qed.

Lemma normalize_location_idempotent (value once column_name : str) :
  forallb (case_stable db) value = true ->
  normalize_location db value = Ok once ->
  dispatch db column_name = Location ->
  normalize_text db once column_name = Ok once.
Proof.
  intros Hst Hloc Hmode. rewrite normalize_text_dispatch, Hmode.
  destruct value as [|a v].
  { injection Hloc as Ht. subst once. reflexivity. }
  unfold normalize_location in Hloc. injection Hloc as Ht. subst once.
  destruct (title db (a :: v)) as [|c r] eqn:E; [reflexivity|].
  unfold normalize_location. rewrite <- E. unfold title.
  rewrite title_from_idempotent by exact Hst. reflexivity.
Qed.

End Idempotence.

(** ** The excerpt of the Unicode tables satisfies the laws *)

Lemma between_true (lo hi c : N) :
  Ucd.between lo hi c = true <-> (lo <= c <= hi)%N.
Proof.
  unfold Ucd.between. rewrite andb_true_iff, !N.leb_le. tauto.
Qed.

Lemma between_false (lo hi c : N) :
  Ucd.between lo hi c = false <-> (c < lo \/ hi < c)%N.
Proof.
  unfold Ucd.between. rewrite andb_false_iff, !N.leb_gt. tauto.
Qed.

Ltac bool_facts :=
  repeat match goal with
         | H : Ucd.between _ _ _ = true |- _ => apply between_true in H
         | H : Ucd.between _ _ _ = false |- _ => apply between_false in H
         | H : (_ =? _)%N = true |- _ => apply N.eqb_eq in H
         | H : (_ =? _)%N = false |- _ => apply N.eqb_neq in H
         | H : _ || _ = false |- _ => apply orb_false_elim in H; destruct H
         end.

Ltac case_tests :=
  repeat match goal with
         | |- context [Ucd.between ?lo ?hi ?x] =>
             let E := fresh "E" in
             destruct (Ucd.between lo hi x) eqn:E; bool_facts; try lia
         | |- context [(?x =? ?k)%N] =>
             let E := fresh "E" in
             destruct (x =? k)%N eqn:E; bool_facts; try lia
         end.

Lemma ucd_not_whitespace (d : N) :
  (65 <= d <= 90 \/ 1024 <= d <= 1071)%N -> Ucd.whitespace d = false.
Proof.
  intros H. unfold Ucd.whitespace.
  repeat apply orb_false_intro;
    first [apply between_false; lia | apply N.eqb_neq; lia].
Qed.

Lemma ucd_upper_fixed (d : N) :
  (d < 97 \/ 122 < d)%N -> d <> 223%N -> (d < 1072 \/ 1119 < d)%N ->
  Ucd.upper d = [d].
Proof.
  intros H1 H2 H3. unfold Ucd.upper. case_tests. reflexivity.
Qed.

Lemma ucd_upper_laws : UpperLaws Ucd.data.
Proof.
  constructor; simpl.
  - intros c _. unfold Ucd.upper. case_tests; discriminate.
  - intros c Hc. unfold Ucd.upper.
    destruct (Ucd.between 97 122 c) eqn:E1; bool_facts.
    { simpl. rewrite ucd_not_whitespace by lia. reflexivity. }
    destruct (c =? 223)%N eqn:E2; bool_facts; [reflexivity|].
    destruct (Ucd.between 1072 1103 c) eqn:E3; bool_facts.
    { simpl. rewrite ucd_not_whitespace by lia. reflexivity. }
    destruct (Ucd.between 1104 1119 c) eqn:E4; bool_facts.
    { simpl. rewrite ucd_not_whitespace by lia. reflexivity. }
    simpl. rewrite Hc. reflexivity.
  - intros c d r _. unfold Ucd.upper at 1.
    destruct (Ucd.between 97 122 c) eqn:E1; bool_facts.
    { intros H. injection H as <- _. apply ucd_upper_fixed; lia. }
    destruct (c =? 223)%N eqn:E2; bool_facts.
    { intros H. injection H as <- _. reflexivity. }
    destruct (Ucd.between 1072 1103 c) eqn:E3; bool_facts.
    { intros H. injection H as <- _. apply ucd_upper_fixed; lia. }
    destruct (Ucd.between 1104 1119 c) eqn:E4; bool_facts.
    { intros H. injection H as <- _. apply ucd_upper_fixed; lia. }
    intros H. injection H as <- _. apply ucd_upper_fixed; lia.
Qed.

Lemma case_stable_simple (db : UnicodeData) (c t l : char) :
  to_title db c = [t] -> to_lower db c = [l] ->
  to_title db t = [t] -> to_lower db l = [l] ->
  is_cased db t = is_cased db c -> is_cased db l = is_cased db c ->
  case_stable db c = true.
Proof.
  intros Ht Hl Htt Hll Hct Hcl. unfold case_stable.
  rewrite Ht, Hl. cbn [title_from last is_empty negb andb].
  rewrite Htt, Hll, Hct, Hcl. cbn [app].
  rewrite !str_eqb_refl, eqb_reflx. reflexivity.
Qed.

Lemma ucd_title_value (c : N) (v : str) :
  c <> 223%N -> Ucd.upper c = v -> Ucd.title c = v.
Proof.
  intros Hc <-. unfold Ucd.title. apply N.eqb_neq in Hc. rewrite Hc. reflexivity.
Qed.

Lemma ucd_lower_fixed (d : N) :
  (d < 65 \/ 90 < d)%N -> d <> 304%N -> (d < 1024 \/ 1071 < d)%N ->
  Ucd.lower d = [d].
Proof.
  intros H1 H2 H3. unfold Ucd.lower. case_tests. reflexivity.
Qed.

Lemma ucd_cased_letter (d : N) :
  (65 <= d <= 90 \/ 97 <= d <= 122 \/ 1024 <= d <= 1119)%N ->
  Ucd.cased d = true.
Proof.
  intros H. unfold Ucd.cased. case_tests; reflexivity.
Qed.

Ltac ucd_solve :=
  cbn [to_title to_lower is_cased Ucd.data];
  first [ reflexivity
        | rewrite !ucd_cased_letter by lia; reflexivity
        | apply ucd_lower_fixed; lia
        | apply ucd_title_value; [lia | apply ucd_upper_fixed; lia]
        | apply ucd_title_value; [lia | unfold Ucd.upper; case_tests; reflexivity]
        | unfold Ucd.lower; case_tests; reflexivity ].

(** Every character but U+0130 is case-stable in the excerpt. *)
Lemma ucd_case_stable (c : N) :
  c <> 304%N -> case_stable Ucd.data c = true.
Proof.
  intros Hc.
  destruct (N.eq_dec c 223) as [->|H223]; [vm_compute; reflexivity|].
  assert (Hclass :
           (65 <= c <= 90 \/ 97 <= c <= 122 \/ 1024 <= c <= 1039
            \/ 1040 <= c <= 1071 \/ 1072 <= c <= 1103 \/ 1104 <= c <= 1119
            \/ ((c < 65 \/ 90 < c) /\ (c < 97 \/ 122 < c)
                /\ (c < 1024 \/ 1119 < c)))%N) by lia.
  destruct Hclass as [H|[H|[H|[H|[H|[H|H]]]]]].
  - apply (case_stable_simple Ucd.data c c (c + 32)%N); ucd_solve.
  - apply (case_stable_simple Ucd.data c (c - 32)%N c); ucd_solve.
  - apply (case_stable_simple Ucd.data c c (c + 80)%N); ucd_solve.
  - apply (case_stable_simple Ucd.data c c (c + 32)%N); ucd_solve.
  - apply (case_stable_simple Ucd.data c (c - 32)%N c); ucd_solve.
  - apply (case_stable_simple Ucd.data c (c - 80)%N c); ucd_solve.
  - apply (case_stable_simple Ucd.data c c c); ucd_solve.
Qed.

(** C7, as the code has it.  For a table of uppercase mappings that
    obeys [UpperLaws], normalisation is idempotent for every string
    under a column name that dispatches to sentence mode, and under a
    column name that dispatches to location mode for every string whose
    characters are case-stable. *)
Theorem normalize_text_idempotent :
  forall (db : UnicodeData) (x c : str),
    UpperLaws db ->
    dispatch db c = Sentence
    \/ (dispatch db c = Location /\ forallb (case_stable db) x = true) ->
    normalize_twice db x c = normalize_text db x c.
Proof.
  intros db x c L Hmode. unfold normalize_twice.
  destruct (normalize_text db x c) as [once|e] eqn:Hone; [|reflexivity].
  simpl. rewrite normalize_text_dispatch in Hone.
  destruct x as [|a v].
  { injection Hone as <-. reflexivity. }
  destruct Hmode as [Hs | [Hl Hst]].
  - rewrite Hs in Hone.
    pose proof (normalize_sentence_idempotent db _ _ L Hone) as H2.
    rewrite normalize_text_dispatch, Hs.
    destruct once; [reflexivity | exact H2].
  - rewrite Hl in Hone.
    exact (normalize_location_idempotent db _ _ _ Hst Hone Hl).
Qed.

Lemma normalize_text_idempotent_witness :
  UpperLaws Ucd.data
  /\ dispatch Ucd.data (u "Комментарий") = Sentence
  /\ dispatch Ucd.data (u "Город") = Location
  /\ forallb (case_stable Ucd.data) (u "санкт-петербург") = true
  /\ normalize_twice Ucd.data (u "  первый Визит ") (u "Комментарий")
     = normalize_text Ucd.data (u "  первый Визит ") (u "Комментарий")
  /\ normalize_twice Ucd.data (u "санкт-петербург") (u "Город")
     = normalize_text Ucd.data (u "санкт-петербург") (u "Город").
Proof.
  split; [exact ucd_upper_laws|].
  split; [vm_compute; reflexivity|].
  split; [vm_compute; reflexivity|].
  split; [vm_compute; reflexivity|].
  split.
  - apply (normalize_text_idempotent Ucd.data _ _ ucd_upper_laws).
    left. vm_compute. reflexivity.
  - apply (normalize_text_idempotent Ucd.data _ _ ucd_upper_laws).
    right. split; vm_compute; reflexivity.
Defined.

(** C7 as stated fails in location mode at "DİYARBAKIR": the first pass
    lower-cases U+0130 to "i" followed by the combining dot U+0307, which
    is not cased, so the second pass capitalises the letter after it. *)
Lemma title_not_idempotent :
  dispatch Ucd.data (u "Город") = Location
  /\ normalize_text Ucd.data (u "DİYARBAKIR") (u "Город")
     = Ok (u "D" ++ [105; 775]%N ++ u "yarbakir")
  /\ normalize_twice Ucd.data (u "DİYARBAKIR") (u "Город")
     = Ok (u "D" ++ [105; 775]%N ++ u "Yarbakir")
  /\ normalize_twice Ucd.data (u "DİYARBAKIR") (u "Город")
     <> normalize_text Ucd.data (u "DİYARBAKIR") (u "Город").
Proof.
  repeat split; try (vm_compute; reflexivity).
  vm_compute. discriminate.
Qed.

(** ** The audit *)

Section AuditFacts.

Variable db : UnicodeData.

Lemma isdigit_forallb (s : str) :
  s <> [] -> isdigit db s = forallb (is_digit db) s.
Proof. destruct s; [congruence | reflexivity]. Qed.

Lemma audit_scan_spec (values flags : list str) :
  audit_scan db values flags
  = flags ++ (if spec_needs_validation db values then [flag_validation] else []).
Proof.
  induction values as [|s rest IH]; simpl.
  - rewrite app_nil_r. reflexivity.
  - destruct s as [|c [|c' s']].
    + simpl. exact IH.
    + rewrite isdigit_forallb by discriminate.
      destruct (forallb (is_digit db) [c]); simpl; [exact IH | reflexivity].
    + rewrite isdigit_forallb by discriminate.
      destruct (forallb (is_digit db) (c :: c' :: s')); simpl; exact IH.
Qed.

Lemma existsb_empty (row : list str) :
  existsb (str_eqb []) row = spec_incomplete row.
Proof.
  unfold spec_incomplete. induction row as [|s rest IH]; simpl; [reflexivity|].
  rewrite IH. destruct s; reflexivity.
Qed.

Lemma audit_integrity_flags (row : list str) :
  audit_integrity db row = join comma_space (spec_flags db row).
Proof.
  unfold audit_integrity, spec_flags.
  rewrite audit_scan_spec, existsb_empty.
  destruct (spec_incomplete row); reflexivity.
Qed.

Lemma audit_integrity_cases (row : list str) :
  audit_integrity db row
  = match spec_incomplete row, spec_needs_validation db row with
    | true, true => flag_incomplete ++ comma_space ++ flag_validation
    | true, false => flag_incomplete
    | false, true => flag_validation
    | false, false => []
    end.
Proof.
  rewrite audit_integrity_flags. unfold spec_flags.
  destruct (spec_incomplete row), (spec_needs_validation db row); reflexivity.
Qed.

Lemma audit_mentions_incomplete (row : list str) :
  contains flag_incomplete (audit_integrity db row) = spec_incomplete row.
Proof.
  rewrite audit_integrity_cases.
  destruct (spec_incomplete row), (spec_needs_validation db row);
    vm_compute; reflexivity.
Qed.

Lemma audit_mentions_validation (row : list str) :
  contains flag_validation (audit_integrity db row) = spec_needs_validation db row.
Proof.
  rewrite audit_integrity_cases.
  destruct (spec_incomplete row), (spec_needs_validation db row);
    vm_compute; reflexivity.
Qed.

Lemma spec_needs_validation_app (a b : list str) :
  spec_needs_validation db (a ++ b)
  = spec_needs_validation db a || spec_needs_validation db b.
Proof. unfold spec_needs_validation. apply existsb_app. Qed.

End AuditFacts.

(** C6. The audit of a row is the ", "-joined list of its flags in the
    order "Incomplete Entry", "Validation Required": the first is
    present exactly when some field is the empty string, the second
    exactly when some field that is not made of digits only has length
    strictly between 0 and 2; each occurs at most once, a row without
    trigger gives the empty string, and the fields after the first
    hit of the scan do not matter. *)
Theorem audit_integrity_spec :
  forall (db : UnicodeData) (row : list str),
    audit_integrity db row = join comma_space (spec_flags db row)
    /\ audit_integrity db row
       = match spec_incomplete row, spec_needs_validation db row with
         | true, true => u "Incomplete Entry, Validation Required"
         | true, false => u "Incomplete Entry"
         | false, true => u "Validation Required"
         | false, false => []
         end
    /\ contains (u "Incomplete Entry") (audit_integrity db row)
       = existsb (fun s => is_empty s) row
    /\ contains (u "Validation Required") (audit_integrity db row)
       = existsb (fun s => negb (forallb (is_digit db) s)
                           && (0 <? length s)%nat && (length s <? 2)%nat) row
    /\ (forall (before after : list str) (s : str) (flags : list str),
          spec_needs_validation db [s] = true ->
          audit_scan db (before ++ s :: after) flags
          = audit_scan db (before ++ [s]) flags).
Proof.
  intros db row.
  split; [apply audit_integrity_flags|].
  split; [apply audit_integrity_cases|].
  split; [apply audit_mentions_incomplete|].
  split; [apply audit_mentions_validation|].
  intros before after s flags Hs.
  rewrite !audit_scan_spec.
  change (s :: after) with ([s] ++ after).
  rewrite !spec_needs_validation_app, Hs, !orb_true_r. reflexivity.
Qed.

Lemma audit_integrity_spec_witness :
  spec_needs_validation Ucd.data [u "x"] = true
  /\ audit_scan Ucd.data ([u "42"; u "Москва"] ++ u "x" :: [u "y"; []]) []
     = audit_scan Ucd.data ([u "42"; u "Москва"] ++ [u "x"]) [].
Proof.
  split; [vm_compute; reflexivity|].
  apply (proj2 (proj2 (proj2 (proj2
           (audit_integrity_spec Ucd.data [u "42"; u "Москва"; u "x"; u "y"; []]))))).
  vm_compute. reflexivity.
Defined.

(** C10. Under a column name that dispatches to sentence mode a
    non-empty value made of whitespace only is normalised to the empty
    string, and a row holding that result is flagged
    "Incomplete Entry". *)
Theorem whitespace_value_becomes_incomplete :
  forall (db : UnicodeData) (value column_name : str),
    value <> [] ->
    forallb (is_whitespace db) value = true ->
    dispatch db column_name = Sentence ->
    normalize_text db value column_name = Ok []
    /\ (forall (once : str) (before after : list str),
          normalize_text db value column_name = Ok once ->
          existsb (str_eqb []) (before ++ once :: after) = true
          /\ contains (u "Incomplete Entry")
                      (audit_integrity db (before ++ once :: after)) = true).
Proof.
  intros db value column_name Hne Hws Hmode.
  assert (Hnorm : normalize_text db value column_name = Ok []).
  { rewrite normalize_text_dispatch, Hmode.
    destruct value as [|c r]; [congruence|].
    rewrite normalize_sentence_ok, (strip_all_whitespace db _ Hws). reflexivity. }
  split; [exact Hnorm|].
  intros once before after Honce.
  rewrite Hnorm in Honce. injection Honce as <-.
  assert (Hinc : existsb (str_eqb []) (before ++ [] :: after) = true).
  { rewrite existsb_app. simpl. apply orb_true_r. }
  split; [exact Hinc|].
  change (u "Incomplete Entry") with flag_incomplete.
  rewrite audit_mentions_incomplete, <- existsb_empty. exact Hinc.
Qed.

Lemma whitespace_value_becomes_incomplete_witness :
  u "   " <> []
  /\ forallb (is_whitespace Ucd.data) (u "   ") = true
  /\ dispatch Ucd.data (u "Комментарий") = Sentence
  /\ normalize_text Ucd.data (u "   ") (u "Комментарий") = Ok []
  /\ contains (u "Incomplete Entry")
              (audit_integrity Ucd.data ([u "Иванов Иван"] ++ [] :: [u "Москва"]))
     = true.
Proof.
  assert (H1 : u "   " <> []) by (vm_compute; discriminate).
  assert (H2 : forallb (is_whitespace Ucd.data) (u "   ") = true)
    by (vm_compute; reflexivity).
  assert (H3 : dispatch Ucd.data (u "Комментарий") = Sentence)
    by (vm_compute; reflexivity).
  destruct (whitespace_value_becomes_incomplete
              Ucd.data (u "   ") (u "Комментарий") H1 H2 H3) as [Hn Ha].
  exact (conj H1 (conj H2 (conj H3 (conj Hn
           (proj2 (Ha [] [u "Иванов Иван"] [u "Москва"] Hn)))))).
Defined.

(** ** Parsing *)

Section ParserFacts.

Variable db : UnicodeData.

Lemma normalize_text_value (value column_name : str) :
  normalize_text db value column_name
  = Ok (normalize_value db value column_name).
Proof.
  unfold normalize_value.
  destruct (normalize_text_total db value column_name) as [s ->]. reflexivity.
Qed.

Lemma parse_line_data (header : list str) (rows : list (list str)) (line : str) :
  parse_line db (header :: rows) line
  = Ok ((header :: rows) ++ [parsed_row db header line]).
Proof.
  unfold parse_line, parsed_row, fields.
  rewrite (mapM_total _ (fun pc => normalize_value db (fst pc) (snd pc))).
  - reflexivity.
  - intros pc _. apply normalize_text_value.
Qed.

Lemma parse_lines_data (lines : list str) (header : list str)
      (rows : list (list str)) :
  parse_lines db lines (header :: rows)
  = Ok ((header :: rows) ++ map (parsed_row db header) lines).
Proof.
  revert rows. induction lines as [|line rest IH]; intros rows; simpl.
  - rewrite app_nil_r. reflexivity.
  - rewrite parse_line_data. cbn [bind].
    change ((header :: rows) ++ [parsed_row db header line])
      with (header :: (rows ++ [parsed_row db header line])).
    rewrite IH. simpl. rewrite <- app_assoc. reflexivity.
Qed.

Lemma parse_lines_all (first : str) (rest : list str) :
  parse_lines db (first :: rest) []
  = Ok (fields db first :: map (parsed_row db (fields db first)) rest).
Proof.
  simpl. rewrite parse_lines_data. reflexivity.
Qed.

(** [zip] stops at the shorter sequence: a parsed row has as many fields
    as the line or as the header, whichever is fewer. *)
Lemma parsed_row_length (header : list str) (line : str) :
  length (parsed_row db header line)
  = Nat.min (length (fields db line)) (length header).
Proof.
  unfold parsed_row. rewrite length_map, length_combine. reflexivity.
Qed.

Lemma parsed_row_nth (header : list str) (line : str) (i : nat) (p col : str) :
  nth_error (fields db line) i = Some p ->
  nth_error header i = Some col ->
  nth_error (parsed_row db header line) i = Some (normalize_value db p col).
Proof.
  intros Hp Hc. unfold parsed_row.
  rewrite nth_error_map.
  assert (H : nth_error (combine (fields db line) header) i = Some (p, col)).
  { revert i header Hp Hc. induction (fields db line) as [|a l IH];
      intros [|i] [|h hs] Hp Hc; simpl in *; try discriminate.
    - congruence.
    - apply IH; assumption. }
  rewrite H. reflexivity.
Qed.

End ParserFacts.

(** ** Structural alignment *)

Lemma widest_bounded (others : list (list str)) (m : nat) :
  Forall (fun r => length r <= m) others ->
  fold_left (fun m r => Nat.max m (length r)) others m = m.
Proof.
  induction others as [|r rest IH]; intros H; simpl.
  - reflexivity.
  - inversion H as [|? ? Hr Hrest]; subst.
    replace (Nat.max m (length r)) with m by lia. apply IH. exact Hrest.
Qed.

Lemma extend_loop_length (k start : nat) (h : list str) :
  length (fold_left (fun h i => h ++ [additional_field i]) (seq start k) h)
  = length h + k.
Proof.
  revert start h. induction k as [|k IH]; intros start h; simpl.
  - lia.
  - rewrite IH, length_app. simpl. lia.
Qed.

Lemma extend_header_length (header : list str) (n : nat) :
  length header <= n -> length (extend_header header n) = n.
Proof.
  intros Hle. unfold extend_header. rewrite extend_loop_length. lia.
Qed.

Lemma align_row_length (header r : list str) :
  length (align_row header r) = length header.
Proof.
  unfold align_row. destruct (Nat.ltb_spec (length r) (length header)).
  - rewrite length_app, repeat_length. lia.
  - apply firstn_length_le. lia.
Qed.

Lemma align_rows_aligned (header : list str) (data_rows : list (list str)) :
  Forall (fun r => length r = length header) (align_rows header data_rows).
Proof.
  unfold align_rows. apply Forall_forall. intros r Hr.
  apply in_map_iff in Hr. destruct Hr as [r0 [<- _]]. apply align_row_length.
Qed.

Lemma structural_alignment_inv (rows : list (list str)) (header : list str)
      (table : list (list str)) :
  structural_alignment rows = Ok (header, table) ->
  exists first others,
    rows = first :: others
    /\ header = (if (length first <? widest first others)%nat
                 then extend_header first (widest first others)
                 else first)
    /\ table = align_rows header others.
Proof.
  unfold structural_alignment. destruct rows as [|first others]; simpl.
  - discriminate.
  - intros H. injection H as <- <-. exists first, others.
    repeat split; reflexivity.
Qed.

Lemma tabulate_spec (db : UnicodeData) (first : str) (rest : list str) :
  tabulate db (first :: rest)
  = Ok (fields db first,
        align_rows (fields db first)
                   (map (parsed_row db (fields db first)) rest)).
Proof.
  unfold tabulate. rewrite parse_lines_all. simpl.
  unfold structural_alignment. simpl.
  rewrite widest_bounded.
  - rewrite Nat.ltb_irrefl. reflexivity.
  - apply Forall_forall. intros r Hr. apply in_map_iff in Hr.
    destruct Hr as [line [<- _]]. rewrite parsed_row_length. lia.
Qed.

Lemma extend_loop_app (k start : nat) (h : list str) :
  fold_left (fun h i => h ++ [additional_field i]) (seq start k) h
  = h ++ map additional_field (seq start k).
Proof.
  revert start h. induction k as [|k IH]; intros start h; simpl.
  - rewrite app_nil_r. reflexivity.
  - rewrite IH, <- app_assoc. reflexivity.
Qed.

Lemma NoDup_map_injective {A B : Type} (f : A -> B) (l : list A) :
  (forall x y, f x = f y -> x = y) -> NoDup l -> NoDup (map f l).
Proof.
  intros Hinj H. induction H as [|x l Hx Hl IH]; simpl; constructor.
  - intros Hin. apply in_map_iff in Hin. destruct Hin as [y [Hy Hyl]].
    apply Hinj in Hy. subst y. exact (Hx Hyl).
  - exact IH.
Qed.

Lemma uint_chars_inj (d1 d2 : Decimal.uint) :
  uint_chars d1 = uint_chars d2 -> d1 = d2.
Proof.
  revert d2. induction d1 as [|r IH|r IH|r IH|r IH|r IH|r IH|r IH|r IH|r IH|r IH];
    intros d2 H; destruct d2; simpl in H; try discriminate; try reflexivity;
    injection H as H; f_equal; apply IH; exact H.
Qed.

Lemma additional_field_inj (i j : nat) :
  additional_field i = additional_field j -> i = j.
Proof.
  unfold additional_field, str_of_nat. intros H.
  apply app_inv_head in H. apply uint_chars_inj in H.
  apply (f_equal Nat.of_uint) in H.
  rewrite !DecimalNat.Unsigned.of_to in H. lia.
Qed.

(** X7. The extension step on rows that do hold more fields than the header:
    the header reaches the largest field count, keeps its names, and the
    appended names are "Additional_Field_k" for their 1-based position
    [k], all different. *)
Lemma structural_alignment_extends (first : list str) (others : list (list str)) :
  length first < widest first others ->
  exists table,
    structural_alignment (first :: others)
    = Ok (first ++ map additional_field
                       (seq (length first) (widest first others - length first)),
          table)
    /\ length (first ++ map additional_field
                 (seq (length first) (widest first others - length first)))
       = widest first others
    /\ NoDup (map additional_field
                  (seq (length first) (widest first others - length first))).
Proof.
  intros Hlt. eexists. split; [|split].
  - unfold structural_alignment. simpl. fold (widest first others).
    apply Nat.ltb_lt in Hlt. rewrite Hlt.
    unfold extend_header. rewrite extend_loop_app. reflexivity.
  - rewrite length_app, length_map, length_seq. lia.
  - apply NoDup_map_injective.
    + intros i j. apply additional_field_inj.
    + apply seq_NoDup.
Qed.

Example ex_extension :
  structural_alignment
    [[u "Сотрудник"; u "Город"]; [u "Иванов Иван"; u "Москва"; u "доп"]; [u "Петров"]]
  = Ok ([u "Сотрудник"; u "Город"; u "Additional_Field_3"],
        [[u "Иванов Иван"; u "Москва"; u "доп"]; [u "Петров"; []; []]]).
Proof. vm_compute. reflexivity. Qed.

(** C3. After structural alignment every data row has exactly as many
    fields as the header: a shorter row is padded on the right with
    empty strings, a longer one is cut on the right to the header's
    length; and the alignment is reached for every non-empty list of
    input lines. *)
Theorem rows_aligned :
  (forall (rows : list (list str)) (header : list str) (table : list (list str)),
      structural_alignment rows = Ok (header, table) ->
      table = map (align_row header) (skipn 1 rows)
      /\ Forall (fun r => length r = length header) table)
  /\ (forall (header r : list str),
        (length r < length header ->
         align_row header r = r ++ repeat [] (length header - length r))
        /\ (length header <= length r ->
            align_row header r = firstn (length header) r))
  /\ (forall (db : UnicodeData) (lines : list str),
        lines <> [] ->
        exists header table,
          tabulate db lines = Ok (header, table)
          /\ length table = length lines - 1
          /\ Forall (fun r => length r = length header) table).
Proof.
  split; [|split].
  - intros rows header table H.
    destruct (structural_alignment_inv rows header table H)
      as [first [others [-> [_ ->]]]].
    split; [reflexivity | apply align_rows_aligned].
  - intros header r. unfold align_row. split; intros H.
    + apply Nat.ltb_lt in H. rewrite H. reflexivity.
    + apply Nat.ltb_ge in H. rewrite H. reflexivity.
  - intros db [|first rest] Hne; [congruence|].
    eexists. eexists. split; [apply tabulate_spec|].
    split.
    + unfold align_rows. rewrite !length_map. simpl. lia.
    + apply align_rows_aligned.
Qed.

Lemma rows_aligned_witness :
  [u "Сотрудник;Город"; u "иванов иван"; u "петров п. п.;казань"] <> []
  /\ exists header table,
       tabulate Ucd.data
                [u "Сотрудник;Город"; u "иванов иван"; u "петров п. п.;казань"]
       = Ok (header, table)
       /\ length table = 2
       /\ Forall (fun r => length r = length header) table.
Proof.
  split; [discriminate|].
  apply (proj2 (proj2 rows_aligned) Ucd.data
               [u "Сотрудник;Город"; u "иванов иван"; u "петров п. п.;казань"]).
  discriminate.
Defined.

(** C1 at a failing input.  The data line has three fields under a
    header of two; the third field does not reach [rows], so the largest
    field count found is two and the header stays as it was read: no
    "Additional_Field_3" is appended. *)
Theorem header_not_extended :
  length (fields Ucd.data (u "Сотрудник,Город")) = 2
  /\ length (fields Ucd.data (u "иванов иван,москва,доп")) = 3
  /\ tabulate Ucd.data [u "Сотрудник,Город"; u "иванов иван,москва,доп"]
     = Ok ([u "Сотрудник"; u "Город"], [[u "Иванов Иван"; u "Москва"]]).
Proof. repeat split; vm_compute; reflexivity. Qed.

(** On every input the final header is the first line's fields. *)
Lemma header_never_extended (db : UnicodeData) (lines : list str)
      (header : list str) (table : list (list str)) :
  tabulate db lines = Ok (header, table) ->
  exists first rest, lines = first :: rest /\ header = fields db first.
Proof.
  destruct lines as [|first rest].
  - discriminate.
  - rewrite tabulate_spec. intros H. injection H as <- _.
    exists first, rest. split; reflexivity.
Qed.

(** C2 at a failing input.  Of the three fields of the data line the
    first two are normalised against "Сотрудник" and "Город"; the third,
    at the index equal to the header's length, is absent from the parsed
    row. *)
Theorem extra_field_dropped :
  fields Ucd.data (u "иванов иван,москва,доп")
  = [u "иванов иван"; u "москва"; u "доп"]
  /\ parse_lines Ucd.data [u "Сотрудник,Город"; u "иванов иван,москва,доп"] []
     = Ok [[u "Сотрудник"; u "Город"]; [u "Иванов Иван"; u "Москва"]].
Proof. split; vm_compute; reflexivity. Qed.

(** ** Deduplication *)

Lemma drop_step (r : list str) (rest seen : list (list str)) :
  map fst (filter (fun rd => negb (snd rd))
                  (combine (r :: rest) (duplicated_from seen (r :: rest))))
  = if existsb (row_eqb r) seen
    then map fst (filter (fun rd => negb (snd rd))
                         (combine rest (duplicated_from (r :: seen) rest)))
    else r :: map fst (filter (fun rd => negb (snd rd))
                              (combine rest (duplicated_from (r :: seen) rest))).
Proof. simpl. destruct (existsb (row_eqb r) seen); reflexivity. Qed.

Lemma existsb_row_In (r : list str) (l : list (list str)) :
  existsb (row_eqb r) l = true <-> In r l.
Proof.
  rewrite existsb_exists. split.
  - intros [x [Hx Heq]]. apply row_eqb_eq in Heq. subst x. exact Hx.
  - intros H. exists r. split; [exact H | apply row_eqb_eq; reflexivity].
Qed.

Lemma existsb_row_rev (r : list str) (l : list (list str)) :
  existsb (row_eqb r) (rev l) = existsb (row_eqb r) l.
Proof.
  apply eq_true_iff_eq. rewrite !existsb_row_In. symmetry. apply in_rev.
Qed.

Lemma drop_from_In (rows seen : list (list str)) (r : list str) :
  In r (map fst (filter (fun rd => negb (snd rd))
                        (combine rows (duplicated_from seen rows))))
  <-> In r rows /\ ~ In r seen.
Proof.
  revert seen. induction rows as [|r0 rest IH]; intros seen.
  - simpl. tauto.
  - rewrite drop_step.
    destruct (existsb (row_eqb r0) seen) eqn:E.
    + apply existsb_row_In in E. rewrite IH. simpl.
      split.
      * intros [Hin Hn]. split; [right; exact Hin | tauto].
      * intros [[Heq | Hin] Hn].
        -- subst r0. contradiction.
        -- split; [exact Hin|]. intros [Heq | Hs]; [subst r0|]; contradiction.
    + assert (Hn0 : ~ In r0 seen).
      { intros H. apply existsb_row_In in H. congruence. }
      simpl. rewrite IH. simpl.
      destruct (list_eq_dec (list_eq_dec N.eq_dec) r0 r) as [Heq | Hne].
      * subst r0. tauto.
      * tauto.
Qed.

Lemma drop_from_NoDup (rows seen : list (list str)) :
  NoDup (map fst (filter (fun rd => negb (snd rd))
                         (combine rows (duplicated_from seen rows)))).
Proof.
  revert seen. induction rows as [|r0 rest IH]; intros seen.
  - simpl. constructor.
  - rewrite drop_step. destruct (existsb (row_eqb r0) seen).
    + apply IH.
    + constructor; [|apply IH].
      rewrite drop_from_In. simpl. tauto.
Qed.

Lemma firstn_prefix {A : Type} (p l : list A) : firstn (length p) (p ++ l) = p.
Proof. induction p as [|a p IH]; simpl; [destruct l|rewrite IH]; reflexivity. Qed.

Lemma drop_from_spec (rows p : list (list str)) :
  map fst (filter (fun rd => negb (snd rd))
                  (combine rows (duplicated_from (rev p) rows)))
  = map snd
        (filter (fun ir => negb (existsb (row_eqb (snd ir))
                                         (firstn (fst ir) (p ++ rows))))
                (combine (seq (length p) (length rows)) rows)).
Proof.
  revert p. induction rows as [|r rest IH]; intros p.
  - reflexivity.
  - rewrite drop_step.
    change (r :: rev p) with (rev [r] ++ rev p).
    rewrite <- rev_app_distr, IH.
    rewrite length_app, Nat.add_1_r, <- app_assoc.
    cbn [length seq combine filter fst snd app].
    rewrite firstn_prefix, existsb_row_rev.
    destruct (existsb (row_eqb r) p); reflexivity.
Qed.

Lemma drop_from_app (a b seen : list (list str)) :
  map fst (filter (fun rd => negb (snd rd))
                  (combine (a ++ b) (duplicated_from seen (a ++ b))))
  = map fst (filter (fun rd => negb (snd rd))
                    (combine a (duplicated_from seen a)))
    ++ map fst (filter (fun rd => negb (snd rd))
                       (combine b (duplicated_from (rev a ++ seen) b))).
Proof.
  revert seen. induction a as [|r a' IH]; intros seen.
  - reflexivity.
  - change ((r :: a') ++ b) with (r :: (a' ++ b)).
    rewrite !drop_step, IH.
    change (rev (r :: a')) with (rev a' ++ [r]). rewrite <- app_assoc.
    destruct (existsb (row_eqb r) seen); reflexivity.
Qed.

(** C4. Deduplication keeps exactly the rows that equal no earlier row,
    in their original order: no two rows of the output are equal, every
    row of the table still occurs in the output, and a row is kept, after
    what was kept of the rows before it, exactly when none of those rows
    equals it. *)
Theorem drop_duplicates_spec :
  forall (rows : list (list str)),
    drop_duplicates rows = spec_keep_first rows
    /\ NoDup (drop_duplicates rows)
    /\ (forall r, In r (drop_duplicates rows) <-> In r rows)
    /\ (forall before r after,
          rows = before ++ r :: after ->
          exists later,
            drop_duplicates rows
            = drop_duplicates before
              ++ (if existsb (row_eqb r) before then [] else [r])
              ++ later).
Proof.
  intros rows. unfold drop_duplicates, duplicated.
  split; [|split; [|split]].
  - apply (drop_from_spec rows []).
  - apply drop_from_NoDup.
  - intros r. rewrite drop_from_In. simpl. tauto.
  - intros before r after ->.
    rewrite drop_from_app, app_nil_r, drop_step, existsb_row_rev.
    eexists. f_equal.
    destruct (existsb (row_eqb r) before); reflexivity.
Qed.

Lemma drop_duplicates_spec_witness :
  [[u "Иванов"; u "Москва"]; [u "Петров"; u "Казань"]; [u "Иванов"; u "Москва"]]
  = [[u "Иванов"; u "Москва"]; [u "Петров"; u "Казань"]]
      ++ [u "Иванов"; u "Москва"] :: []
  /\ exists later,
       drop_duplicates
         [[u "Иванов"; u "Москва"]; [u "Петров"; u "Казань"]; [u "Иванов"; u "Москва"]]
       = drop_duplicates [[u "Иванов"; u "Москва"]; [u "Петров"; u "Казань"]]
         ++ (if existsb (row_eqb [u "Иванов"; u "Москва"])
                        [[u "Иванов"; u "Москва"]; [u "Петров"; u "Казань"]]
             then [] else [[u "Иванов"; u "Москва"]])
         ++ later.
Proof.
  split; [reflexivity|].
  apply (proj2 (proj2 (proj2 (drop_duplicates_spec
           [[u "Иванов"; u "Москва"]; [u "Петров"; u "Казань"];
            [u "Иванов"; u "Москва"]])))
           [[u "Иванов"; u "Москва"]; [u "Петров"; u "Казань"]]
           [u "Иванов"; u "Москва"] []).
  reflexivity.
Defined.

Example ex_dedup :
  drop_duplicates
    [[u "Иванов"; u "Москва"]; [u "Петров"; u "Казань"]; [u "Иванов"; u "Москва"];
     [u "Сидоров"; u "Омск"]; [u "Петров"; u "Казань"]]
  = [[u "Иванов"; u "Москва"]; [u "Петров"; u "Казань"]; [u "Сидоров"; u "Омск"]].
Proof. vm_compute. reflexivity. Qed.

(** ** The run *)

Section RunFacts.

Variable db : UnicodeData.

Lemma nonblank_lines_nil (raw : list str) :
  nonblank_lines db raw = [] <-> Forall (fun line => strip db line = []) raw.
Proof.
  unfold nonblank_lines. induction raw as [|line rest IH]; simpl.
  - split; [constructor | reflexivity].
  - destruct (strip db line) eqn:E; simpl.
    + rewrite IH. split; intros H.
      * constructor; assumption.
      * inversion H; assumption.
    + rewrite E. split; intros H; [discriminate|].
      inversion H; congruence.
Qed.

Lemma run_no_files (w : World) :
  raw_data w = [] ->
  run_data_processing db w
  = (Some no_files_error,
     printed (logged w [LogStarted; LogTraceback no_files_error])
             [PrintCritical no_files_error]).
Proof.
  intros H.
  unfold run_data_processing, try_body, bindM, glob, write_log, raise, print,
    printed, logged.
  simpl. rewrite H. simpl. rewrite <- ?app_assoc. reflexivity.
Qed.

Lemma run_unreadable (w : World) (name : str) (f : file_content)
      (others : list (str * file_content)) (e : exn) :
  raw_data w = (name, f) :: others ->
  read_text f = Raise e ->
  run_data_processing db w
  = (Some e,
     printed (logged w [LogStarted; LogTarget name; LogTraceback e])
             [PrintCritical e]).
Proof.
  intros H He.
  unfold run_data_processing, try_body, bindM, glob, write_log, raise, lift, print,
    printed, logged.
  simpl. rewrite H. simpl. rewrite He. simpl. rewrite <- ?app_assoc. reflexivity.
Qed.

Lemma run_no_lines (w : World) (name s : str) (others : list (str * file_content)) :
  raw_data w = (name, Text s) :: others ->
  nonblank_lines db (readlines_from [] s) = [] ->
  run_data_processing db w
  = (Some no_data_error,
     printed (logged w [LogStarted; LogTarget name; LogTraceback no_data_error])
             [PrintCritical no_data_error]).
Proof.
  intros H Hl.
  unfold run_data_processing, try_body, bindM, glob, write_log, raise, lift, print,
    printed, logged.
  simpl. rewrite H. simpl. rewrite Hl. simpl. rewrite <- ?app_assoc. reflexivity.
Qed.

(** With a first file that has a usable line the run reaches the
    export, having logged the target and the count of duplicates. *)
Lemma run_parsed (w : World) (name s : str) (others : list (str * file_content))
      (first : str) (rest : list str) :
  raw_data w = (name, Text s) :: others ->
  nonblank_lines db (readlines_from [] s) = first :: rest ->
  run_data_processing db w
  = handled
      (export (frame_of db first rest)
         (logged w [LogStarted; LogTarget name;
                    LogDuplicates (length rest - length (cleaned db first rest))])).
Proof.
  intros H Hl.
  assert (Hmax : max_len (fields db first :: map (parsed_row db (fields db first)) rest)
                 = Ok (length (fields db first))).
  { unfold max_len. rewrite widest_bounded; [reflexivity|].
    apply Forall_forall. intros r Hr. apply in_map_iff in Hr.
    destruct Hr as [line [<- _]]. rewrite parsed_row_length. lia. }
  unfold run_data_processing, try_body.
  unfold bindM at 1. unfold write_log at 1. cbn [fst snd].
  unfold bindM at 1. unfold glob. cbn [fst snd raw_data]. rewrite H.
  unfold bindM at 1. unfold write_log at 1. cbn [fst snd].
  unfold bindM at 1. unfold lift at 1. cbn [fst snd read_text].
  rewrite Hl. cbn [is_empty].
  unfold bindM at 1. unfold lift at 1. rewrite parse_lines_all.
  unfold bindM at 1. unfold lift at 1. cbn [getrow nth_error].
  unfold bindM at 1. unfold lift at 1. rewrite Hmax.
  unfold bindM at 1. rewrite Nat.ltb_irrefl. unfold ret.
  unfold bindM at 1. unfold write_log at 1.
  cbn [fst snd skipn columns records raw_data platform log_file output_csv
       output_excel console opened].
  unfold handled, frame_of, cleaned, logged, align_rows.
  rewrite !length_map, <- !app_assoc. cbn [app].
  rewrite <- H.
  destruct (export _ _) as [[u0|e] w']; reflexivity.
Qed.

End RunFacts.

(** The export either returns, having written the frame to both
    files, logged the completion, printed the count and opened the
    spreadsheet; or it raises inside a library call, having logged and
    printed either nothing or the completion and the count (when only
    the launcher raised). *)
Lemma export_effect (df : Frame) (w : World) :
  raw_data (snd (export df w)) = raw_data w
  /\ platform (snd (export df w)) = platform w
  /\ match fst (export df w) with
     | Ok _ =>
         snd (export df w)
         = {| raw_data := raw_data w; platform := platform w;
              log_file := log_file w ++ [LogCompleted];
              output_csv := Written df; output_excel := Written df;
              console := console w ++ [PrintComplete (length (records df))];
              opened := true |}
     | Raise e =>
         (exists class message, e = LibraryError class message)
         /\ opened (snd (export df w)) = opened w
         /\ ((log_file (snd (export df w)) = log_file w
              /\ console (snd (export df w)) = console w)
             \/ (log_file (snd (export df w)) = log_file w ++ [LogCompleted]
                 /\ console (snd (export df w))
                    = console w ++ [PrintComplete (length (records df))]))
     end.
Proof.
  unfold export, bindM, to_csv, to_excel, write_log, print, open_file,
    put_csv, put_excel.
  destruct (csv_outcome (platform w) df) eqn:Ec;
    cbn [fst snd raw_data platform log_file output_csv output_excel console opened];
    try (repeat split; eauto; fail).
  destruct (excel_outcome (platform w) df) eqn:Ee;
    cbn [fst snd raw_data platform log_file output_csv output_excel console opened];
    try (repeat split; eauto; fail).
  destruct (open_outcome (platform w)) as [[class message]|] eqn:Eo;
    cbn [fst snd raw_data platform log_file output_csv output_excel console opened].
  - repeat split; eauto.
  - repeat split; reflexivity.
Qed.

Lemma run_outcomes :
  forall (db : UnicodeData) (w : World),
    (fst (run_data_processing db w) = Some no_files_error
     <-> raw_data w = [])
    /\ (fst (run_data_processing db w) = Some no_data_error
        <-> exists name s others,
              raw_data w = (name, Text s) :: others /\ no_usable_lines db s)
    /\ (forall e,
          fst (run_data_processing db w) = Some e ->
          is_input_error e = true ->
          output_csv (snd (run_data_processing db w)) = output_csv w
          /\ output_excel (snd (run_data_processing db w)) = output_excel w
          /\ opened (snd (run_data_processing db w)) = opened w
          /\ In (LogTraceback e) (log_file (snd (run_data_processing db w))))
    /\ (fst (run_data_processing db w) = None ->
        exists df,
          output_csv (snd (run_data_processing db w)) = Written df
          /\ output_excel (snd (run_data_processing db w)) = Written df).
Proof.
  intros db w. unfold no_usable_lines.
  destruct (raw_data w) as [|[name [class message| |s]] others] eqn:Hraw.
  - rewrite (run_no_files db w Hraw). simpl.
    split; [tauto|]. split; [|split].
    + split; [discriminate|]. intros [? [? [? [? _]]]]. discriminate.
    + intros e He _. injection He as <-. repeat split; try reflexivity.
      apply in_or_app. right. simpl. tauto.
    + discriminate.
  - rewrite (run_unreadable db w name _ others _ Hraw eq_refl). simpl.
    split; [split; discriminate|]. split; [|split].
    + split; [discriminate|]. intros [? [? [? [? _]]]]. discriminate.
    + intros e He Hin. injection He as <-. discriminate.
    + discriminate.
  - rewrite (run_unreadable db w name _ others _ Hraw eq_refl). simpl.
    split; [split; discriminate|]. split; [|split].
    + split; [discriminate|]. intros [? [? [? [? _]]]]. discriminate.
    + intros e He Hin. injection He as <-. discriminate.
    + discriminate.
  - destruct (nonblank_lines db (readlines_from [] s)) as [|first rest] eqn:Hl.
    + rewrite (run_no_lines db w name s others Hraw Hl). simpl.
      split; [split; discriminate|]. split; [|split].
      * split; [|reflexivity]. intros _. exists name, s, others.
        split; [reflexivity|]. apply nonblank_lines_nil. exact Hl.
      * intros e He _. injection He as <-. repeat split; try reflexivity.
        apply in_or_app. right. simpl. tauto.
      * discriminate.
    + rewrite (run_parsed db w name s others first rest Hraw Hl).
      set (w2 := logged w _).
      destruct (export_effect (frame_of db first rest) w2) as [_ [_ Hexp]].
      unfold handled.
      destruct (export (frame_of db first rest) w2) as [[u0|e] w'];
        cbn [fst snd] in *.
      * split; [split; discriminate|]. split; [|split].
        -- split; [discriminate|]. intros [name' [s' [others' [Heq Hno]]]].
           injection Heq as _ <- _. apply nonblank_lines_nil in Hno. congruence.
        -- discriminate.
        -- intros _. exists (frame_of db first rest). rewrite Hexp.
           split; reflexivity.
      * destruct Hexp as [[class [message ->]] _].
        split; [split; discriminate|]. split; [|split].
        -- split; [discriminate|]. intros [name' [s' [others' [Heq Hno]]]].
           injection Heq as _ <- _. apply nonblank_lines_nil in Hno. congruence.
        -- intros e He Hin. injection He as <-. discriminate.
        -- discriminate.
Qed.

(** C9. The run ends in one of the two input errors exactly when the
    directory lists no file ([FileNotFoundError]) or the first file it
    lists decodes to text without a non-blank line ([ValueError]); the
    run then stops before the export: the CSV and the spreadsheet are
    left as they were, nothing is opened, and the traceback is logged.
    A run that catches nothing has written both files in full. *)
Theorem input_errors_abort_run :
  forall (db : UnicodeData) (w : World),
    ((exists e, fst (run_data_processing db w) = Some e /\ is_input_error e = true)
     <-> raw_data w = []
         \/ exists name s others,
              raw_data w = (name, Text s) :: others /\ no_usable_lines db s)
    /\ (fst (run_data_processing db w) = Some no_files_error
        <-> raw_data w = [])
    /\ (fst (run_data_processing db w) = Some no_data_error
        <-> exists name s others,
              raw_data w = (name, Text s) :: others /\ no_usable_lines db s)
    /\ (forall e,
          fst (run_data_processing db w) = Some e ->
          is_input_error e = true ->
          output_csv (snd (run_data_processing db w)) = output_csv w
          /\ output_excel (snd (run_data_processing db w)) = output_excel w
          /\ opened (snd (run_data_processing db w)) = opened w
          /\ In (LogTraceback e) (log_file (snd (run_data_processing db w))))
    /\ (fst (run_data_processing db w) = None ->
        exists df,
          output_csv (snd (run_data_processing db w)) = Written df
          /\ output_excel (snd (run_data_processing db w)) = Written df).
Proof.
  intros db w. destruct (run_outcomes db w) as [H1 [H2 [H3 H4]]].
  split; [|exact (conj H1 (conj H2 (conj H3 H4)))].
  split.
  - intros [e [He Hin]]. destruct e as [|m|m| |c m]; try discriminate.
    + apply String.eqb_eq in Hin. subst m. right. apply H2. exact He.
    + apply String.eqb_eq in Hin. subst m. left. apply H1. exact He.
  - intros [Hnone | Hblank].
    + exists no_files_error. split; [apply H1; exact Hnone | reflexivity].
    + exists no_data_error. split; [apply H2; exact Hblank | reflexivity].
Qed.

Lemma input_errors_abort_run_witness :
  fst (run_data_processing Ucd.data
         (world0 [(u "empty.txt", Text [32; 10; 10; 9; 32; 10]%N)]))
  = Some no_data_error
  /\ is_input_error no_data_error = true
  /\ output_csv (snd (run_data_processing Ucd.data
                        (world0 [(u "empty.txt", Text [32; 10; 10; 9; 32; 10]%N)])))
     = NotWritten
  /\ output_excel (snd (run_data_processing Ucd.data
                          (world0 [(u "empty.txt", Text [32; 10; 10; 9; 32; 10]%N)])))
     = NotWritten.
Proof.
  pose proof (proj1 (proj2 (proj2 (proj2
                (input_errors_abort_run Ucd.data
                   (world0 [(u "empty.txt", Text [32; 10; 10; 9; 32; 10]%N)])))))
              no_data_error eq_refl eq_refl) as H.
  exact (conj eq_refl (conj eq_refl (conj (proj1 H) (proj1 (proj2 H))))).
Defined.

Example ex_no_files :
  run_data_processing Ucd.data (world0 [])
  = (Some no_files_error,
     {| raw_data := []; platform := kind_platform;
        log_file := [LogStarted; LogTraceback no_files_error];
        output_csv := NotWritten; output_excel := NotWritten;
        console := [PrintCritical no_files_error];
        opened := false |}).
Proof. vm_compute. reflexivity. Qed.

Example ex_undecodable :
  fst (run_data_processing Ucd.data (world0 [(u "data.bin", Undecodable)]))
  = Some UnicodeDecodeError.
Proof. vm_compute. reflexivity. Qed.

(** The listing holds directories too; opening one raises. *)
Example ex_directory :
  fst (run_data_processing Ucd.data
         (world0 [(u "old.d", Unreadable "IsADirectoryError" "Is a directory")]))
  = Some (LibraryError "IsADirectoryError" "Is a directory").
Proof. vm_compute. reflexivity. Qed.

Example ex_run :
  let w := snd (run_data_processing Ucd.data
                  (world0 [(u "in.csv", Text (u "Сотрудник,Город
иванов иван,москва
"))])) in
  output_csv w = Written {| columns := [u "Сотрудник"; u "Город"; u "Audit_Flag"];
                            records := [[u "Иванов Иван"; u "Москва"; []]] |}
  /\ log_file w = [LogStarted; LogTarget (u "in.csv"); LogDuplicates 0; LogCompleted].
Proof. vm_compute. split; reflexivity. Qed.

Example ex_ragged :
  let w := snd (run_data_processing Ucd.data
                  (world0 [(u "in.csv", Text (u "a,b
xx,yy,zz
q
"))])) in
  output_csv w
  = Written {| columns := [u "a"; u "b"; u "Audit_Flag"];
               records := [[u "Xx"; u "Yy"; []];
                           [u "Q"; []; u "Incomplete Entry, Validation Required"]] |}.
Proof. vm_compute. reflexivity. Qed.

(** A header column labelled "Audit_Flag" is overwritten by the flags:
    the two records, different before, are exported as equal rows. *)
Example ex_audit_flag_overwritten :
  let w := snd (run_data_processing Ucd.data
                  (world0 [(u "in.csv", Text (u "Audit_Flag,b
x1,yy
x2,yy
"))])) in
  output_csv w
  = Written {| columns := [u "Audit_Flag"; u "b"];
               records := [[[]; u "Yy"]; [[]; u "Yy"]] |}.
Proof. vm_compute. reflexivity. Qed.

(** When the spreadsheet block raises after the sheet is written, the
    CSV is already in place and the run ends in the handler. *)
Example ex_export_raises :
  let w0 := world0 [(u "in.csv", Text (u "a,a
xx,yy
"))] in
  let w1 :=
    {| raw_data := raw_data w0;
       platform :=
         {| csv_outcome := fun _ => Returns;
            excel_outcome :=
              fun _ => RaisesAfter "ValueError"
                                   "The truth value of a Series is ambiguous.";
            open_outcome := None |};
       log_file := []; output_csv := NotWritten; output_excel := NotWritten;
       console := []; opened := false |} in
  fst (run_data_processing Ucd.data w1)
  = Some (LibraryError "ValueError" "The truth value of a Series is ambiguous.")
  /\ output_csv (snd (run_data_processing Ucd.data w1))
     = Written {| columns := [u "a"; u "a"; u "Audit_Flag"];
                  records := [[u "Xx"; u "Yy"; []]] |}
  /\ opened (snd (run_data_processing Ucd.data w1)) = false.
Proof. vm_compute. repeat split. Qed.

Example ex_city :
  normalize_text Ucd.data (u "санкт-петербург") (u "Город")
  = Ok (u "Санкт-Петербург").
Proof. vm_compute. reflexivity. Qed.

Example ex_sentence :
  normalize_text Ucd.data (u "  hello World ") (u "Notes")
  = Ok (u "Hello World").
Proof. vm_compute. reflexivity. Qed.

(* ================================================================== *)
(** * Further properties *)

(** ** Stripping and splitting *)

Section StripFacts.

Variable db : UnicodeData.

Lemma strip_sub (s : str) : exists p q, s = p ++ strip db s ++ q.
Proof.
  destruct (lstrip_suffix db s) as [p Hp].
  destruct (rstrip_prefix db (lstrip db s)) as [q Hq].
  exists p, q. unfold strip. rewrite <- Hq. exact Hp.
Qed.

Lemma strip_idempotent (s : str) : strip db (strip db s) = strip db s.
Proof.
  destruct (strip db s) as [|c r] eqn:E; [reflexivity|].
  destruct (@exists_last _ (c :: r)) as [p [z Hpz]]; [discriminate|].
  apply (strip_fixed db c p z).
  - exact Hpz.
  - exists r. reflexivity.
  - exact (strip_starts db s c r E).
  - unfold strip in E. rewrite Hpz in E. exact (rstrip_ends db _ _ _ E).
Qed.

Lemma forallb_strip (f : char -> bool) (s : str) :
  forallb f s = true -> forallb f (strip db s) = true.
Proof.
  intros H. destruct (strip_sub s) as [p [q Hs]].
  rewrite Hs in H. rewrite !forallb_app in H.
  apply andb_prop in H. destruct H as [_ H].
  apply andb_prop in H. tauto.
Qed.

Lemma forallb_rev_eq (f : char -> bool) (s : str) :
  forallb f (rev s) = forallb f s.
Proof.
  induction s as [|c r IH]; simpl; [reflexivity|].
  rewrite forallb_app, IH. simpl. rewrite andb_true_r. apply andb_comm.
Qed.

Lemma lstrip_nil_inv (s : str) :
  lstrip db s = [] -> forallb (is_whitespace db) s = true.
Proof.
  induction s as [|c r IH]; simpl; [reflexivity|].
  destruct (is_whitespace db c); [exact IH | discriminate].
Qed.

Lemma strip_nil_iff (s : str) :
  strip db s = [] <-> forallb (is_whitespace db) s = true.
Proof.
  split; [|apply strip_all_whitespace].
  intros H. unfold strip, rstrip in H.
  destruct (lstrip db s) as [|c r] eqn:E.
  - apply lstrip_nil_inv. exact E.
  - exfalso.
    apply (f_equal (@rev char)) in H. rewrite rev_involutive in H.
    change (rev []) with (@nil char) in H.
    apply lstrip_nil_inv in H. rewrite forallb_rev_eq in H.
    simpl in H. apply andb_prop in H. destruct H as [Hc _].
    rewrite (lstrip_starts db s c r E) in Hc. discriminate.
Qed.

Lemma lstrip_app_whitespace (pre s : str) :
  forallb (is_whitespace db) pre = true -> lstrip db (pre ++ s) = lstrip db s.
Proof.
  induction pre as [|c r IH]; simpl; intros H; [reflexivity|].
  apply andb_prop in H. destruct H as [Hc Hr]. rewrite Hc. apply IH. exact Hr.
Qed.

Lemma lstrip_app_keep (s post : str) :
  lstrip db s <> [] -> lstrip db (s ++ post) = lstrip db s ++ post.
Proof.
  induction s as [|c r IH]; simpl; intros H; [congruence|].
  destruct (is_whitespace db c); [apply IH; exact H | reflexivity].
Qed.

Lemma rstrip_app_whitespace (s post : str) :
  forallb (is_whitespace db) post = true -> rstrip db (s ++ post) = rstrip db s.
Proof.
  intros H. unfold rstrip. rewrite rev_app_distr, lstrip_app_whitespace.
  - reflexivity.
  - rewrite forallb_rev_eq. exact H.
Qed.

Lemma strip_surrounded (pre s post : str) :
  forallb (is_whitespace db) pre = true ->
  forallb (is_whitespace db) post = true ->
  strip db (pre ++ s ++ post) = strip db s.
Proof.
  intros Hpre Hpost. unfold strip. rewrite lstrip_app_whitespace by exact Hpre.
  destruct (lstrip db s) as [|c r] eqn:E.
  - rewrite (lstrip_all_whitespace db (s ++ post)); [reflexivity|].
    rewrite forallb_app, Hpost, (lstrip_nil_inv s E). reflexivity.
  - rewrite lstrip_app_keep by congruence. rewrite E.
    apply rstrip_app_whitespace. exact Hpost.
Qed.

End StripFacts.

(** ** Fields and lines *)

Lemma re_split_from_length (line cur : str) :
  length (re_split_from cur line) = S (count_seps line).
Proof.
  unfold count_seps. revert cur.
  induction line as [|c rest IH]; intros cur; simpl; [reflexivity|].
  destruct (is_sep c); simpl; rewrite IH; reflexivity.
Qed.

Lemma re_split_from_no_sep (line cur : str) :
  forallb (fun c => negb (is_sep c)) cur = true ->
  Forall (fun f => forallb (fun c => negb (is_sep c)) f = true)
         (re_split_from cur line).
Proof.
  revert cur. induction line as [|c rest IH]; intros cur Hcur; simpl.
  - constructor; [exact Hcur | constructor].
  - destruct (is_sep c) eqn:Hc.
    + constructor; [exact Hcur | apply IH; reflexivity].
    + apply IH. rewrite forallb_app, Hcur. simpl. rewrite Hc. reflexivity.
Qed.

Lemma re_split_from_concat (line cur : str) :
  concat (re_split_from cur line)
  = cur ++ filter (fun c => negb (is_sep c)) line.
Proof.
  revert cur. induction line as [|c rest IH]; intros cur; simpl.
  - reflexivity.
  - destruct (is_sep c); simpl.
    + rewrite IH. reflexivity.
    + rewrite IH, <- app_assoc. reflexivity.
Qed.

(** X1. Splitting a line gives one field more than it has separators
    (so at least one, also for an empty line); the fields hold the
    line's other characters in order; and each stripped field is free
    of separators and is left alone by a further [strip]. *)
Theorem fields_wellformed :
  forall (db : UnicodeData) (line : str),
    length (fields db line) = S (count_seps line)
    /\ concat (re_split line) = filter (fun c => negb (is_sep c)) line
    /\ Forall (fun f => forallb (fun c => negb (is_sep c)) f = true
                        /\ strip db f = f)
              (fields db line).
Proof.
  intros db line. unfold fields, re_split.
  split; [rewrite length_map; apply re_split_from_length|].
  split; [apply (re_split_from_concat line [])|].
  apply Forall_forall. intros f Hf.
  apply in_map_iff in Hf. destruct Hf as [raw [<- Hraw]].
  split; [|apply strip_idempotent].
  apply forallb_strip.
  pose proof (re_split_from_no_sep line [] eq_refl) as Hall.
  rewrite Forall_forall in Hall. exact (Hall raw Hraw).
Qed.

(** X2. The lines handed to the parser are never empty and carry no
    outer whitespace, there are no more of them than raw lines, and a
    blank raw line anywhere changes nothing. *)
Theorem nonblank_lines_clean :
  forall (db : UnicodeData) (raw : list str),
    Forall (fun line => line <> [] /\ strip db line = line)
           (nonblank_lines db raw)
    /\ length (nonblank_lines db raw) <= length raw
    /\ (forall (before after : list str) (blank : str),
          raw = before ++ blank :: after ->
          strip db blank = [] ->
          nonblank_lines db raw = nonblank_lines db (before ++ after)).
Proof.
  intros db raw. unfold nonblank_lines. split; [|split].
  - apply Forall_forall. intros line Hline.
    apply in_map_iff in Hline. destruct Hline as [r [<- Hr]].
    apply filter_In in Hr. destruct Hr as [_ Hr].
    split; [|apply strip_idempotent].
    destruct (strip db r); [discriminate | discriminate].
  - rewrite length_map. apply filter_length_le.
  - intros before after blank -> Hblank.
    rewrite !filter_app. simpl. rewrite Hblank. reflexivity.
Qed.

Lemma nonblank_lines_clean_witness :
  [u "a,b"; u "  "; u "1,2"] = [u "a,b"] ++ u "  " :: [u "1,2"]
  /\ strip Ucd.data (u "  ") = []
  /\ nonblank_lines Ucd.data [u "a,b"; u "  "; u "1,2"]
     = nonblank_lines Ucd.data ([u "a,b"] ++ [u "1,2"]).
Proof.
  refine (conj eq_refl (conj eq_refl _)).
  exact (proj2 (proj2 (nonblank_lines_clean Ucd.data [u "a,b"; u "  "; u "1,2"]))
               [u "a,b"] [u "1,2"] (u "  ") eq_refl eq_refl).
Defined.

(** ** More on the normaliser *)

Lemma normalize_text_sentence (db : UnicodeData) (value column_name : str) :
  dispatch db column_name = Sentence ->
  normalize_text db value column_name = normalize_sentence db value.
Proof.
  intros H. rewrite normalize_text_dispatch, H.
  destruct value; reflexivity.
Qed.

(** X3. In sentence mode whitespace around the value does not matter:
    a value and the same value between runs of whitespace are
    normalised to the same string. *)
Theorem sentence_ignores_outer_whitespace :
  forall (db : UnicodeData) (before value after column_name : str),
    dispatch db column_name = Sentence ->
    forallb (is_whitespace db) before = true ->
    forallb (is_whitespace db) after = true ->
    normalize_text db (before ++ value ++ after) column_name
    = normalize_text db value column_name.
Proof.
  intros db before value after column_name Hmode Hb Ha.
  rewrite !normalize_text_sentence by exact Hmode.
  rewrite !normalize_sentence_ok, strip_surrounded by assumption.
  reflexivity.
Qed.

Lemma sentence_ignores_outer_whitespace_witness :
  dispatch Ucd.data (u "Комментарий") = Sentence
  /\ forallb (is_whitespace Ucd.data) (u "  ") = true
  /\ forallb (is_whitespace Ucd.data) [9; 32]%N = true
  /\ normalize_text Ucd.data (u "  " ++ u "первый визит" ++ [9; 32]%N)
                    (u "Комментарий")
     = normalize_text Ucd.data (u "первый визит") (u "Комментарий").
Proof.
  refine (conj eq_refl (conj eq_refl (conj eq_refl _))).
  exact (sentence_ignores_outer_whitespace Ucd.data (u "  ") (u "первый визит")
           [9; 32]%N (u "Комментарий") eq_refl eq_refl eq_refl).
Defined.

Section TokenFacts.

Variable db : UnicodeData.

Lemma filter_not_whitespace_nil (s : str) :
  filter (fun c => negb (is_whitespace db c)) s = [] ->
  forallb (is_whitespace db) s = true.
Proof.
  induction s as [|c r IH]; simpl; [reflexivity|].
  destruct (is_whitespace db c); simpl; [exact IH | discriminate].
Qed.

Lemma split_nil_iff (s : str) :
  split db s = [] <-> forallb (is_whitespace db) s = true.
Proof.
  split; intros H.
  - apply filter_not_whitespace_nil.
    pose proof (split_from_concat db s []) as Hc. simpl in Hc.
    rewrite <- Hc. unfold split in H. rewrite H. reflexivity.
  - unfold split. induction s as [|c r IH]; simpl; [reflexivity|].
    simpl in H. apply andb_prop in H. destruct H as [Hc Hr].
    rewrite Hc. apply IH. exact Hr.
Qed.

Lemma join_nonempty (sep x : str) (rest : list str) :
  x <> [] -> join sep (x :: rest) <> [].
Proof.
  intros Hx. destruct rest as [|y r]; simpl.
  - exact Hx.
  - destruct x; [congruence | discriminate].
Qed.

Lemma spec_fio_token_nonempty (t : str) :
  (forall c, to_title db c <> []) -> t <> [] -> spec_fio_token db t <> [].
Proof.
  intros Ht Hne. unfold spec_fio_token.
  assert (Hcap : capitalize db t <> []).
  { destruct t as [|c r]; [congruence|]. simpl.
    intros E. apply app_eq_nil in E. exact (Ht c (proj1 E)). }
  destruct t as [|c0 [|c1 [|c2 r]]]; try exact Hcap.
  destruct (c1 =? period)%N; [|exact Hcap].
  intros E. apply app_eq_nil in E. destruct E as [_ E]. discriminate.
Qed.

Lemma split_from_token (t cur s : str) :
  forallb (fun c => negb (is_whitespace db c)) t = true ->
  split_from db cur (t ++ s) = split_from db (cur ++ t) s.
Proof.
  revert cur. induction t as [|c r IH]; intros cur H; simpl.
  - rewrite app_nil_r. reflexivity.
  - simpl in H. apply andb_prop in H. destruct H as [Hc Hr].
    apply negb_true_iff in Hc. rewrite Hc, IH by exact Hr.
    rewrite <- app_assoc. reflexivity.
Qed.

(** Splitting what [join] made of tokens with single spaces gives the
    tokens back. *)
Lemma split_join (words : list str) :
  is_whitespace db 32%N = true ->
  Forall (is_token db) words ->
  split db (join space words) = words.
Proof.
  intros Hsp H. unfold split.
  induction H as [|t rest [Hne Hnw] Hrest IH]; [reflexivity|].
  destruct rest as [|t' rest'].
  - pose proof (split_from_token t [] [] Hnw) as E.
    rewrite app_nil_r in E. simpl. rewrite E.
    destruct t; [congruence | reflexivity].
  - change (join space (t :: t' :: rest'))
      with (t ++ 32%N :: join space (t' :: rest')).
    rewrite split_from_token by exact Hnw. cbn [app split_from]. rewrite Hsp.
    destruct t; [congruence|]. rewrite IH. reflexivity.
Qed.

Lemma forallb_flat_map (f : char -> bool) (g : char -> str) (s : str) :
  (forall c, In c s -> forallb f (g c) = true) ->
  forallb f (flat_map g s) = true.
Proof.
  induction s as [|c r IH]; intros H; simpl; [reflexivity|].
  rewrite forallb_app, (H c (or_introl eq_refl)). simpl.
  apply IH. intros d Hd. apply H. right. exact Hd.
Qed.

Lemma spec_fio_token_is_token (t : str) :
  MappingLaws db -> is_token db t -> is_token db (spec_fio_token db t).
Proof.
  intros L [Hne Hnw].
  assert (Hin : forall c, In c t -> is_whitespace db c = false).
  { intros c Hc. rewrite forallb_forall in Hnw.
    apply negb_true_iff. exact (Hnw c Hc). }
  assert (Hcap : is_token db (capitalize db t)).
  { destruct t as [|c r]; [congruence|]. simpl.
    destruct (title_is_token db L c (Hin c (or_introl eq_refl))) as [Hn Hw].
    split.
    - intros E. apply app_eq_nil in E. exact (Hn (proj1 E)).
    - rewrite forallb_app, Hw. simpl. unfold lower.
      apply forallb_flat_map. intros d Hd.
      exact (proj2 (lower_is_token db L d (Hin d (or_intror Hd)))). }
  unfold spec_fio_token.
  destruct t as [|c0 [|c1 [|c2 r]]]; try exact Hcap.
  destruct (c1 =? period)%N; [|exact Hcap].
  destruct (upper_is_token db L c0 (Hin c0 (or_introl eq_refl))) as [Hn Hw].
  split.
  - intros E. apply app_eq_nil in E. destruct E as [_ E]. discriminate.
  - rewrite forallb_app, Hw. simpl.
    rewrite (period_not_whitespace db L). reflexivity.
Qed.

Lemma token_chars (value t : str) (c : char) :
  In t (split db value) -> In c t -> In c value.
Proof.
  intros Ht Hc.
  assert (H : In c (concat (split db value))).
  { apply in_concat. exists t. split; assumption. }
  unfold split in H. rewrite split_from_concat in H. simpl in H.
  apply filter_In in H. tauto.
Qed.

End TokenFacts.

(** X4. Given tables whose uppercase and titlecase mappings are never
    empty, normalisation returns the empty string exactly for a value
    made of whitespace only (a value without any character included) in
    person-name and sentence mode, and exactly for the empty value in
    location mode. *)
Theorem normalized_empty_iff :
  forall (db : UnicodeData) (value column_name : str),
    (forall c, to_upper db c <> []) ->
    (forall c, to_title db c <> []) ->
    (normalize_text db value column_name = Ok []
     <-> match dispatch db column_name with
         | Location => value = []
         | PersonName | Sentence => forallb (is_whitespace db) value = true
         end).
Proof.
  intros db value column_name Hup Hti.
  rewrite normalize_text_dispatch.
  destruct value as [|a v].
  { destruct (dispatch db column_name); split; reflexivity. }
  destruct (dispatch db column_name).
  - rewrite normalize_fio_ok, <- split_nil_iff.
    destruct (split db (a :: v)) as [|t rest] eqn:E.
    + split; reflexivity.
    + split; [|discriminate]. intros H. exfalso. injection H as H.
      pose proof (split_tokens db (a :: v)) as Htok. rewrite E in Htok.
      inversion Htok as [|? ? [Hne _] _].
      exact (join_nonempty space (spec_fio_token db t)
               (map (spec_fio_token db) rest)
               (spec_fio_token_nonempty db t Hti Hne) H).
  - simpl. split; [|discriminate]. intros H. exfalso. injection H as H.
    apply app_eq_nil in H. exact (Hti a (proj1 H)).
  - rewrite normalize_sentence_ok, <- strip_nil_iff.
    destruct (strip db (a :: v)) as [|c r] eqn:E.
    + split; reflexivity.
    + split; [|discriminate]. intros H. exfalso. injection H as H.
      apply app_eq_nil in H. exact (Hup c (proj1 H)).
Qed.

Lemma ucd_upper_nonempty (c : N) : Ucd.upper c <> [].
Proof. unfold Ucd.upper. case_tests; discriminate. Qed.

Lemma ucd_title_nonempty (c : N) : Ucd.title c <> [].
Proof.
  unfold Ucd.title. destruct (c =? 223)%N; [discriminate | apply ucd_upper_nonempty].
Qed.

Lemma normalized_empty_iff_witness :
  (normalize_text Ucd.data [32; 9; 32]%N (u "Сотрудник") = Ok []
   <-> forallb (is_whitespace Ucd.data) [32; 9; 32]%N = true)
  /\ (normalize_text Ucd.data [32]%N (u "Город") = Ok []
      <-> [32]%N = []).
Proof.
  split.
  - exact (normalized_empty_iff Ucd.data [32; 9; 32]%N (u "Сотрудник")
             ucd_upper_nonempty ucd_title_nonempty).
  - exact (normalized_empty_iff Ucd.data [32]%N (u "Город")
             ucd_upper_nonempty ucd_title_nonempty).
Defined.

Lemma normalize_text_person (db : UnicodeData) (value column_name : str) :
  dispatch db column_name = PersonName ->
  normalize_text db value column_name
  = Ok (join space (map (spec_fio_token db) (split db value))).
Proof.
  intros H. rewrite normalize_text_dispatch, H.
  destruct value; [reflexivity | apply normalize_fio_ok].
Qed.

Lemma normalized_words_are_tokens (db : UnicodeData) (value : str) :
  MappingLaws db ->
  Forall (is_token db) (map (spec_fio_token db) (split db value)).
Proof.
  intros L. apply Forall_forall. intros w Hw.
  apply in_map_iff in Hw. destruct Hw as [t [<- Ht]].
  apply spec_fio_token_is_token; [exact L|].
  pose proof (split_tokens db value) as Hall.
  rewrite Forall_forall in Hall. exact (Hall t Ht).
Qed.

(** X5. In person-name mode, with tables that obey [MappingLaws], the
    result is a list of words joined by single spaces: as many words as
    the value has, none empty or holding whitespace, so that the result
    has no outer whitespace and splitting it gives the same words. *)
Theorem person_name_single_spaced :
  forall (db : UnicodeData) (value column_name : str),
    MappingLaws db ->
    dispatch db column_name = PersonName ->
    exists words,
      normalize_text db value column_name = Ok (join space words)
      /\ length words = length (split db value)
      /\ Forall (is_token db) words
      /\ split db (join space words) = words
      /\ strip db (join space words) = join space words.
Proof.
  intros db value column_name L Hmode.
  exists (map (spec_fio_token db) (split db value)).
  pose proof (normalized_words_are_tokens db value L) as Htok.
  split; [apply normalize_text_person; exact Hmode|].
  split; [apply length_map|].
  split; [exact Htok|].
  split; [apply split_join; [exact (space_is_whitespace db L) | exact Htok]|].
  (* no outer whitespace: the first and last characters belong to words *)
  destruct (map (spec_fio_token db) (split db value)) as [|w ws] eqn:E;
    [reflexivity|].
  assert (Hfirst : exists c r, join space (w :: ws) = c :: r
                               /\ is_whitespace db c = false).
  { inversion Htok as [|? ? [Hne Hnw] _]; subst.
    destruct w as [|c r]; [congruence|].
    simpl in Hnw. apply andb_prop in Hnw. destruct Hnw as [Hc _].
    apply negb_true_iff in Hc.
    destruct ws; simpl; eauto. }
  assert (Hlast : exists p z, join space (w :: ws) = p ++ [z]
                              /\ is_whitespace db z = false).
  { clear Hfirst E. revert w Htok.
    induction ws as [|w' ws' IH]; intros w Htok.
    - inversion Htok as [|? ? [Hne Hnw] _]; subst.
      destruct (@exists_last _ w Hne) as [p [z Hpz]].
      exists p, z. split; [exact Hpz|].
      apply negb_true_iff.
      exact (forallb_last (fun c => negb (is_whitespace db c)) w p z Hnw Hpz).
    - inversion Htok as [|? ? _ Hrest]; subst.
      destruct (IH w' Hrest) as [p [z [Hpz Hz]]].
      exists (w ++ 32%N :: p), z. split; [|exact Hz].
      change (join space (w :: w' :: ws'))
        with (w ++ 32%N :: join space (w' :: ws')).
      rewrite Hpz, <- app_assoc. reflexivity. }
  destruct Hfirst as [c [r [Hcr Hc]]]. destruct Hlast as [p [z [Hpz Hz]]].
  apply (strip_fixed db c p z); [exact Hpz | exists r; exact Hcr | exact Hc | exact Hz].
Qed.

Lemma ucd_not_whitespace_wide (d : N) :
  (33 <= d <= 132 \/ 161 <= d <= 5759)%N -> Ucd.whitespace d = false.
Proof.
  intros H. unfold Ucd.whitespace.
  repeat apply orb_false_intro;
    first [apply between_false; lia | apply N.eqb_neq; lia].
Qed.

Lemma ucd_mapping_laws : MappingLaws Ucd.data.
Proof.
  constructor; try reflexivity.
  - intros c Hc. split.
    + exact (upper_nonempty Ucd.data ucd_upper_laws c Hc).
    + exact (upper_no_whitespace Ucd.data ucd_upper_laws c Hc).
  - intros c Hc. cbn [to_title Ucd.data]. unfold Ucd.title.
    destruct (c =? 223)%N; [split; [discriminate | reflexivity]|].
    split.
    + exact (upper_nonempty Ucd.data ucd_upper_laws c Hc).
    + exact (upper_no_whitespace Ucd.data ucd_upper_laws c Hc).
  - intros c Hc. cbn [to_lower Ucd.data] in *. cbn [is_whitespace Ucd.data] in *.
    unfold Ucd.lower.
    destruct (Ucd.between 65 90 c) eqn:E1; bool_facts.
    { split; [discriminate|]. simpl.
      rewrite ucd_not_whitespace_wide by lia. reflexivity. }
    destruct (c =? 304)%N eqn:E2; bool_facts.
    { split; [discriminate | reflexivity]. }
    destruct (Ucd.between 1040 1071 c) eqn:E3; bool_facts.
    { split; [discriminate|]. simpl.
      rewrite ucd_not_whitespace_wide by lia. reflexivity. }
    destruct (Ucd.between 1024 1039 c) eqn:E4; bool_facts.
    { split; [discriminate|]. simpl.
      rewrite ucd_not_whitespace_wide by lia. reflexivity. }
    split; [discriminate|]. simpl. rewrite Hc. reflexivity.
Qed.

Lemma person_name_single_spaced_witness :
  MappingLaws Ucd.data
  /\ dispatch Ucd.data (u "Сотрудник") = PersonName
  /\ exists words,
       normalize_text Ucd.data (u "  петров   п. п. ") (u "Сотрудник")
       = Ok (join space words)
       /\ length words = length (split Ucd.data (u "  петров   п. п. "))
       /\ Forall (is_token Ucd.data) words
       /\ split Ucd.data (join space words) = words
       /\ strip Ucd.data (join space words) = join space words.
Proof.
  refine (conj ucd_mapping_laws (conj eq_refl _)).
  exact (person_name_single_spaced Ucd.data (u "  петров   п. п. ")
           (u "Сотрудник") ucd_mapping_laws eq_refl).
Defined.

Section PersonIdempotence.

Variable db : UnicodeData.

Lemma fio_stable_inv (c : char) :
  fio_stable db c = true ->
  exists up t l,
    to_upper db c = [up] /\ to_title db c = [t] /\ to_lower db c = [l]
    /\ to_upper db up = [up] /\ to_title db t = [t] /\ to_lower db l = [l]
    /\ (l = period -> c = period).
Proof.
  unfold fio_stable.
  destruct (to_upper db c) as [|up [|? ?]]; try discriminate.
  destruct (to_title db c) as [|t [|? ?]]; try discriminate.
  destruct (to_lower db c) as [|l [|? ?]]; try discriminate.
  intros H.
  apply andb_prop in H. destruct H as [H H4].
  apply andb_prop in H. destruct H as [H H3].
  apply andb_prop in H. destruct H as [H1 H2].
  apply str_eqb_eq in H1, H2, H3.
  exists up, t, l. repeat split; try assumption.
  intros Hl. apply orb_prop in H4. destruct H4 as [H4 | H4].
  - apply negb_true_iff, N.eqb_neq in H4. contradiction.
  - apply N.eqb_eq. exact H4.
Qed.

Lemma lower_stable (rest : str) :
  (forall c, In c rest -> fio_stable db c = true) ->
  length (lower db rest) = length rest
  /\ lower db (lower db rest) = lower db rest
  /\ (lower db rest = [period] -> rest = [period]).
Proof.
  unfold lower. induction rest as [|c r IH]; intros H.
  - repeat split; [discriminate].
  - destruct (fio_stable_inv c (H c (or_introl eq_refl)))
      as [up [t [l [_ [_ [Hl [_ [_ [Hll Hp]]]]]]]]].
    destruct (IH (fun d Hd => H d (or_intror Hd))) as [Hlen [Hfix _]].
    simpl. rewrite Hl. simpl. rewrite Hll. simpl.
    split; [rewrite Hlen; reflexivity|].
    split; [rewrite Hfix; reflexivity|].
    intros E. injection E as E1 E2.
    rewrite E2 in Hlen. destruct r; [|discriminate].
    rewrite (Hp E1). reflexivity.
Qed.

Lemma spec_fio_token_other (c : char) (rest : str) :
  rest <> [period] ->
  spec_fio_token db (c :: rest) = capitalize db (c :: rest).
Proof.
  intros H. unfold spec_fio_token.
  destruct rest as [|x [|y r]]; try reflexivity.
  destruct (N.eqb_spec x period) as [->|Hx]; [congruence | reflexivity].
Qed.

Lemma spec_fio_token_stable (t : str) :
  (forall c, In c t -> fio_stable db c = true) ->
  spec_fio_token db (spec_fio_token db t) = spec_fio_token db t.
Proof.
  intros H. destruct t as [|c0 rest]; [reflexivity|].
  destruct (fio_stable_inv c0 (H c0 (or_introl eq_refl)))
    as [up [tc [l [Hup [Hti [_ [Hupup [Htt _]]]]]]]].
  destruct (lower_stable rest (fun d Hd => H d (or_intror Hd)))
    as [Hlen [Hfix Hper]].
  assert (Hcap : capitalize db (c0 :: rest) = tc :: lower db rest).
  { simpl. rewrite Hti. reflexivity. }
  assert (Hcap2 : capitalize db (tc :: lower db rest) = tc :: lower db rest).
  { simpl. rewrite Htt, Hfix. reflexivity. }
  assert (Hinitial :
           forall c1, rest = [c1] -> (c1 =? period)%N = true ->
                      spec_fio_token db (spec_fio_token db (c0 :: rest))
                      = spec_fio_token db (c0 :: rest)).
  { intros c1 -> Hc1.
    assert (E : spec_fio_token db [c0; c1] = [up; period]).
    { unfold spec_fio_token. rewrite Hc1, Hup. reflexivity. }
    rewrite E. unfold spec_fio_token.
    change (period =? period)%N with true. cbv iota.
    rewrite Hupup. reflexivity. }
  assert (Hother :
           spec_fio_token db (c0 :: rest) = capitalize db (c0 :: rest) ->
           lower db rest <> [period] ->
           spec_fio_token db (spec_fio_token db (c0 :: rest))
           = spec_fio_token db (c0 :: rest)).
  { intros E Hnp. rewrite E, Hcap.
    rewrite (spec_fio_token_other tc (lower db rest) Hnp). exact Hcap2. }
  destruct rest as [|c1 [|c2 r]].
  - apply Hother; [reflexivity | simpl; discriminate].
  - destruct (c1 =? period)%N eqn:Hc1.
    + apply (Hinitial c1 eq_refl Hc1).
    + apply Hother.
      * unfold spec_fio_token. rewrite Hc1. reflexivity.
      * intros E. apply Hper in E. injection E as E.
        apply N.eqb_neq in Hc1. contradiction.
  - apply Hother; [reflexivity|].
    intros E. apply Hper in E. discriminate.
Qed.

End PersonIdempotence.

(** X6. Person-name mode is idempotent on values built from characters
    that are [fio_stable], under tables that obey [MappingLaws]:
    normalising the normalised name changes nothing. *)
Theorem person_name_idempotent :
  forall (db : UnicodeData) (value column_name : str),
    MappingLaws db ->
    dispatch db column_name = PersonName ->
    forallb (fio_stable db) value = true ->
    normalize_twice db value column_name = normalize_text db value column_name.
Proof.
  intros db value column_name L Hmode Hst. unfold normalize_twice.
  rewrite (normalize_text_person db value column_name Hmode). simpl.
  rewrite (normalize_text_person db _ column_name Hmode).
  rewrite split_join;
    [|exact (space_is_whitespace db L) | apply normalized_words_are_tokens; exact L].
  rewrite map_map. f_equal. f_equal.
  apply map_ext_in. intros t Ht.
  apply spec_fio_token_stable. intros c Hc.
  rewrite forallb_forall in Hst. apply Hst.
  exact (token_chars db value t c Ht Hc).
Qed.

Lemma person_name_idempotent_witness :
  MappingLaws Ucd.data
  /\ dispatch Ucd.data (u "Сотрудник") = PersonName
  /\ forallb (fio_stable Ucd.data) (u "петров  П. п.") = true
  /\ normalize_twice Ucd.data (u "петров  П. п.") (u "Сотрудник")
     = normalize_text Ucd.data (u "петров  П. п.") (u "Сотрудник").
Proof.
  refine (conj ucd_mapping_laws (conj eq_refl (conj eq_refl _))).
  exact (person_name_idempotent Ucd.data (u "петров  П. п.") (u "Сотрудник")
           ucd_mapping_laws eq_refl eq_refl).
Defined.

Example ex_person_not_idempotent :
  normalize_text Ucd.data [223; 46]%N (u "Сотрудник") = Ok (u "SS.")
  /\ normalize_twice Ucd.data [223; 46]%N (u "Сотрудник") = Ok (u "Ss.").
Proof. split; vm_compute; reflexivity. Qed.

(** ** More on parsing and alignment *)

Lemma widest_covers (others : list (list str)) (m : nat) :
  m <= fold_left (fun m r => Nat.max m (length r)) others m
  /\ Forall (fun r => length r
                      <= fold_left (fun m r => Nat.max m (length r)) others m)
            others.
Proof.
  revert m. induction others as [|r rest IH]; intros m; simpl.
  - split; [lia | constructor].
  - destruct (IH (Nat.max m (length r))) as [Hm Hall].
    split; [lia|]. constructor; [lia | exact Hall].
Qed.

Lemma align_row_pad (header r : list str) :
  length r <= length header ->
  align_row header r = r ++ repeat [] (length header - length r).
Proof.
  intros Hle. unfold align_row.
  destruct (length r <? length header)%nat eqn:Hlt; [reflexivity|].
  apply Nat.ltb_ge in Hlt.
  assert (E : length header = length r) by lia.
  rewrite E, firstn_all, Nat.sub_diag. simpl. rewrite app_nil_r. reflexivity.
Qed.

Lemma structural_alignment_extends_witness :
  length [u "Сотрудник"; u "Город"]
  < widest [u "Сотрудник"; u "Город"]
           [[u "Иванов Иван"; u "Москва"; u "доп"; u "ещё"]; [u "Петров"]]
  /\ exists table,
       structural_alignment
         [[u "Сотрудник"; u "Город"];
          [u "Иванов Иван"; u "Москва"; u "доп"; u "ещё"]; [u "Петров"]]
       = Ok ([u "Сотрудник"; u "Город"; u "Additional_Field_3";
              u "Additional_Field_4"], table).
Proof.
  assert (H : length [u "Сотрудник"; u "Город"]
              < widest [u "Сотрудник"; u "Город"]
                       [[u "Иванов Иван"; u "Москва"; u "доп"; u "ещё"];
                        [u "Петров"]]) by (vm_compute; lia).
  split; [exact H|].
  destruct (structural_alignment_extends
              [u "Сотрудник"; u "Город"]
              [[u "Иванов Иван"; u "Москва"; u "доп"; u "ещё"]; [u "Петров"]] H)
    as [table [Htable _]].
  exists table. exact Htable.
Defined.

(** X8. Whatever rows step 2 is given, the final header starts with
    the header as read, is as long as the longest row, and stays as read
    when no data row is longer; no data row is ever cut: each one is in
    the table in full, followed by the empty strings that bring it to
    the header's length. *)
Theorem alignment_never_truncates :
  forall (rows : list (list str)) (header : list str) (table : list (list str)),
    structural_alignment rows = Ok (header, table) ->
    exists first others ext,
      rows = first :: others
      /\ header = first ++ ext
      /\ length header = widest first others
      /\ Forall (fun r => length r <= length header) rows
      /\ (Forall (fun r => length r <= length first) others -> ext = [])
      /\ table = map (fun r => r ++ repeat [] (length header - length r)) others.
Proof.
  intros rows header table H.
  destruct (structural_alignment_inv rows header table H)
    as [first [others [-> [Hh Ht]]]].
  destruct (widest_covers others (length first)) as [Hge Hall].
  fold (widest first others) in Hge, Hall.
  assert (Hlen : length header = widest first others).
  { rewrite Hh. destruct (Nat.ltb_spec (length first) (widest first others)).
    - apply extend_header_length. lia.
    - lia. }
  exists first, others.
  exists (if (length first <? widest first others)%nat
          then map additional_field
                   (seq (length first) (widest first others - length first))
          else []).
  split; [reflexivity|].
  split.
  { rewrite Hh. destruct (length first <? widest first others)%nat.
    - unfold extend_header. apply extend_loop_app.
    - rewrite app_nil_r. reflexivity. }
  split; [exact Hlen|].
  split.
  { rewrite Hlen. constructor; [exact Hge | exact Hall]. }
  split.
  { intros Hshort.
    assert (Hw : widest first others = length first).
    { unfold widest. apply widest_bounded. exact Hshort. }
    rewrite Hw, Nat.ltb_irrefl. reflexivity. }
  rewrite Ht. unfold align_rows. apply map_ext_in. intros r Hr.
  rewrite Forall_forall in Hall. specialize (Hall r Hr).
  apply align_row_pad. exact (Nat.le_trans _ _ _ Hall (Nat.eq_le_incl _ _ (eq_sym Hlen))).
Qed.

Lemma alignment_never_truncates_witness :
  exists first others ext,
    [[u "a"; u "b"]; [u "1"; u "2"; u "3"]; [u "4"]] = first :: others
    /\ [u "a"; u "b"; u "Additional_Field_3"] = first ++ ext
    /\ length [u "a"; u "b"; u "Additional_Field_3"] = widest first others
    /\ Forall (fun r => length r <= length [u "a"; u "b"; u "Additional_Field_3"])
              [[u "a"; u "b"]; [u "1"; u "2"; u "3"]; [u "4"]]
    /\ (Forall (fun r => length r <= length first) others -> ext = [])
    /\ [[u "1"; u "2"; u "3"]; [u "4"; []; []]]
       = map (fun r => r ++ repeat [] (length [u "a"; u "b"; u "Additional_Field_3"]
                                       - length r)) others.
Proof.
  exact (alignment_never_truncates
           [[u "a"; u "b"]; [u "1"; u "2"; u "3"]; [u "4"]]
           [u "a"; u "b"; u "Additional_Field_3"]
           [[u "1"; u "2"; u "3"]; [u "4"; []; []]] eq_refl).
Defined.

(** X9. Parsing always succeeds and gives one row per line, in order:
    the first row is the first line's stripped fields as they are, and
    the row of a later line has as many fields as the line or the header,
    whichever has fewer, each the normalisation of the line's field at
    that position under the header name at that position. *)
Theorem parse_lines_rows :
  forall (db : UnicodeData) (first : str) (rest : list str),
    exists data,
      parse_lines db (first :: rest) [] = Ok (fields db first :: data)
      /\ length data = length rest
      /\ (forall i line,
            nth_error rest i = Some line ->
            exists row,
              nth_error data i = Some row
              /\ length row
                 = Nat.min (length (fields db line)) (length (fields db first))
              /\ (forall j p col,
                    nth_error (fields db line) j = Some p ->
                    nth_error (fields db first) j = Some col ->
                    exists s,
                      normalize_text db p col = Ok s
                      /\ nth_error row j = Some s)).
Proof.
  intros db first rest.
  exists (map (parsed_row db (fields db first)) rest).
  split; [apply parse_lines_all|].
  split; [apply length_map|].
  intros i line Hline.
  exists (parsed_row db (fields db first) line).
  split; [rewrite nth_error_map, Hline; reflexivity|].
  split; [apply parsed_row_length|].
  intros j p col Hp Hcol.
  exists (normalize_value db p col).
  split; [apply normalize_text_value | apply parsed_row_nth; assumption].
Qed.

Lemma parse_lines_rows_witness :
  nth_error [u "иванов иван,москва,доп"] 0 = Some (u "иванов иван,москва,доп")
  /\ exists data row,
       parse_lines Ucd.data [u "Сотрудник,Город"; u "иванов иван,москва,доп"] []
       = Ok (fields Ucd.data (u "Сотрудник,Город") :: data)
       /\ nth_error data 0 = Some row
       /\ length row = 2.
Proof.
  split; [reflexivity|].
  destruct (parse_lines_rows Ucd.data (u "Сотрудник,Город")
              [u "иванов иван,москва,доп"]) as [data [Hparse [_ Hrows]]].
  destruct (Hrows 0 (u "иванов иван,москва,доп") eq_refl) as [row [Hrow [Hlen _]]].
  exists data, row. exact (conj Hparse (conj Hrow Hlen)).
Defined.

(** ** More on deduplication *)

Lemma drop_from_length (rows seen : list (list str)) :
  length (map fst (filter (fun rd => negb (snd rd))
                          (combine rows (duplicated_from seen rows))))
  <= length rows.
Proof.
  revert seen. induction rows as [|r rest IH]; intros seen.
  - simpl. lia.
  - rewrite drop_step. specialize (IH (r :: seen)).
    destruct (existsb (row_eqb r) seen); simpl; lia.
Qed.

Lemma drop_from_full (rows seen : list (list str)) :
  length (map fst (filter (fun rd => negb (snd rd))
                          (combine rows (duplicated_from seen rows))))
  = length rows ->
  map fst (filter (fun rd => negb (snd rd))
                  (combine rows (duplicated_from seen rows)))
  = rows.
Proof.
  revert seen. induction rows as [|r rest IH]; intros seen.
  - reflexivity.
  - rewrite drop_step. pose proof (drop_from_length rest (r :: seen)) as Hle.
    destruct (existsb (row_eqb r) seen); simpl; intros H.
    + lia.
    + f_equal. apply IH. lia.
Qed.

Lemma drop_from_fixed (rows seen : list (list str)) :
  NoDup rows ->
  (forall r, In r rows -> ~ In r seen) ->
  map fst (filter (fun rd => negb (snd rd))
                  (combine rows (duplicated_from seen rows)))
  = rows.
Proof.
  revert seen. induction rows as [|r rest IH]; intros seen Hnd Hdis.
  - reflexivity.
  - rewrite drop_step. inversion Hnd as [|? ? Hr Hrest]; subst.
    destruct (existsb (row_eqb r) seen) eqn:E.
    + apply existsb_row_In in E. exfalso.
      exact (Hdis r (or_introl eq_refl) E).
    + f_equal. apply IH; [exact Hrest|].
      intros x Hx [Heq | Hs].
      * subst x. contradiction.
      * exact (Hdis x (or_intror Hx) Hs).
Qed.

(** X10. Deduplication is idempotent, never lengthens the table, and
    removes nothing exactly when no two rows of the table are equal, in
    which case the table comes back as it was (the logged count of
    removed duplicates is then 0). *)
Theorem drop_duplicates_fixed_point :
  forall (rows : list (list str)),
    drop_duplicates (drop_duplicates rows) = drop_duplicates rows
    /\ length (drop_duplicates rows) <= length rows
    /\ (length rows - length (drop_duplicates rows) = 0 <-> NoDup rows)
    /\ (NoDup rows <-> drop_duplicates rows = rows).
Proof.
  intros rows.
  assert (Hfix : forall l, NoDup l -> drop_duplicates l = l).
  { intros l Hl. unfold drop_duplicates, duplicated.
    apply drop_from_fixed; [exact Hl | intros r _ []]. }
  assert (Hnd : NoDup (drop_duplicates rows)).
  { unfold drop_duplicates, duplicated. apply drop_from_NoDup. }
  assert (Hle : length (drop_duplicates rows) <= length rows).
  { unfold drop_duplicates, duplicated. apply drop_from_length. }
  split; [apply Hfix; exact Hnd|].
  split; [exact Hle|].
  split.
  - split.
    + intros H. assert (E : drop_duplicates rows = rows).
      { unfold drop_duplicates, duplicated. apply drop_from_full.
        fold (duplicated rows). fold (drop_duplicates rows). lia. }
      rewrite <- E. exact Hnd.
    + intros H. rewrite (Hfix rows H). lia.
  - split; [apply Hfix|]. intros E. rewrite <- E. exact Hnd.
Qed.

Lemma drop_duplicates_fixed_point_witness :
  NoDup [[u "Иванов"; u "Москва"]; [u "Петров"; u "Казань"]]
  /\ drop_duplicates [[u "Иванов"; u "Москва"]; [u "Петров"; u "Казань"]]
     = [[u "Иванов"; u "Москва"]; [u "Петров"; u "Казань"]].
Proof.
  assert (H : NoDup [[u "Иванов"; u "Москва"]; [u "Петров"; u "Казань"]]).
  { constructor.
    - intros [E | []]. vm_compute in E. discriminate.
    - constructor; [intros [] | constructor]. }
  split; [exact H|].
  exact (proj1 (proj2 (proj2 (proj2
           (drop_duplicates_fixed_point
              [[u "Иванов"; u "Москва"]; [u "Петров"; u "Казань"]])))) H).
Defined.

(** ** More on the audit *)

Lemma existsb_permutation {A : Type} (f : A -> bool) (l l' : list A) :
  Permutation l l' -> existsb f l = existsb f l'.
Proof.
  intros H. induction H as [|x l l' _ IH|x y l|l l' l'' _ IH1 _ IH2]; simpl.
  - reflexivity.
  - rewrite IH. reflexivity.
  - destruct (f x), (f y); reflexivity.
  - rewrite IH1. exact IH2.
Qed.

(** X11. The audit of a row does not depend on the order of its
    fields, although the scan for "Validation Required" goes through
    them in order and stops at the first hit. *)
Theorem audit_order_independent :
  forall (db : UnicodeData) (row row' : list str),
    Permutation row row' ->
    audit_integrity db row = audit_integrity db row'.
Proof.
  intros db row row' H. rewrite !audit_integrity_cases.
  assert (E1 : spec_incomplete row = spec_incomplete row')
    by (apply existsb_permutation; exact H).
  assert (E2 : spec_needs_validation db row = spec_needs_validation db row')
    by (apply existsb_permutation; exact H).
  rewrite E1, E2. reflexivity.
Qed.

Lemma audit_order_independent_witness :
  Permutation [u "x"; []; u "42"] [u "42"; u "x"; []]
  /\ audit_integrity Ucd.data [u "x"; []; u "42"]
     = audit_integrity Ucd.data [u "42"; u "x"; []].
Proof.
  assert (H : Permutation [u "x"; []; u "42"] [u "42"; u "x"; []]).
  { apply (Permutation_cons_app [u "42"] [[]] (u "x")).
    apply (Permutation_cons_app [u "42"] [] []).
    apply Permutation_refl. }
  split; [exact H|].
  exact (audit_order_independent Ucd.data _ _ H).
Defined.

(** X12. A data row with fewer fields than the header is padded with
    empty strings, so its audit always reports "Incomplete Entry"; a row
    that fills the header without an empty field never does. *)
Theorem short_rows_are_incomplete :
  forall (db : UnicodeData) (header r : list str),
    (length r < length header ->
     contains (u "Incomplete Entry") (audit_integrity db (align_row header r))
     = true)
    /\ (length header <= length r ->
        Forall (fun s => s <> []) r ->
        contains (u "Incomplete Entry") (audit_integrity db (align_row header r))
        = false).
Proof.
  intros db header r.
  change (u "Incomplete Entry") with flag_incomplete.
  rewrite audit_mentions_incomplete. unfold spec_incomplete, align_row.
  split.
  - intros Hlt. apply Nat.ltb_lt in Hlt. rewrite Hlt.
    apply Nat.ltb_lt in Hlt.
    rewrite existsb_app. destruct (length header - length r) as [|n] eqn:E; [lia|].
    simpl. apply orb_true_r.
  - intros Hge Hall. apply Nat.ltb_ge in Hge. rewrite Hge.
    destruct (existsb (fun s => is_empty s) (firstn (length header) r)) eqn:E;
      [|reflexivity].
    apply existsb_exists in E. destruct E as [s [Hs He]].
    assert (Hs' : In s r).
    { rewrite <- (firstn_skipn (length header) r). apply in_or_app. left. exact Hs. }
    clear Hs. rename Hs' into Hs. rewrite Forall_forall in Hall.
    destruct s; [exfalso; exact (Hall [] Hs eq_refl) | discriminate].
Qed.

Lemma short_rows_are_incomplete_witness :
  length [u "Иванов Иван"] < length [u "Сотрудник"; u "Город"]
  /\ contains (u "Incomplete Entry")
              (audit_integrity Ucd.data
                 (align_row [u "Сотрудник"; u "Город"] [u "Иванов Иван"]))
     = true.
Proof.
  assert (H : length [u "Иванов Иван"] < length [u "Сотрудник"; u "Город"])
    by (vm_compute; lia).
  split; [exact H|].
  exact (proj1 (short_rows_are_incomplete Ucd.data
                  [u "Сотрудник"; u "Город"] [u "Иванов Иван"]) H).
Defined.

(** ** More on the run *)

Lemma cleaned_clean (db : UnicodeData) (first : str) (rest : list str) :
  NoDup (cleaned db first rest)
  /\ Forall (fun r => length r = length (fields db first)) (cleaned db first rest)
  /\ length (cleaned db first rest) <= length rest.
Proof.
  unfold cleaned, drop_duplicates, duplicated.
  split; [apply drop_from_NoDup|]. split.
  - apply Forall_forall. intros r Hr. apply drop_from_In in Hr.
    destruct Hr as [Hr _].
    pose proof (align_rows_aligned (fields db first)
                  (map (parsed_row db (fields db first)) rest)) as Hall.
    rewrite Forall_forall in Hall. exact (Hall r Hr).
  - eapply Nat.le_trans; [apply drop_from_length|].
    unfold align_rows. rewrite !length_map. lia.
Qed.

Lemma overwrite_length (labels : list str) (name : str) (row : list str) (v : str) :
  length (overwrite labels name row v) = length row.
Proof.
  revert row. induction labels as [|l ls IH]; intros [|x xs]; simpl;
    try reflexivity. rewrite IH. reflexivity.
Qed.

Lemma combine_map_same {A B : Type} (f : A -> B) (l : list A) :
  combine l (map f l) = map (fun x => (x, f x)) l.
Proof. induction l as [|x l IH]; simpl; [|rewrite IH]; reflexivity. Qed.

(** Assigning a column computed row by row: every row keeps the
    frame's width; without a column of that label the label and the
    values come last. *)
Lemma set_column_rowwise (df : Frame) (name : str) (f : list str -> str) :
  Forall (fun r => length r = length (columns df)) (records df) ->
  Forall (fun r => length r
                   = length (columns (set_column df name (map f (records df)))))
         (records (set_column df name (map f (records df))))
  /\ length (records (set_column df name (map f (records df))))
     = length (records df)
  /\ (existsb (str_eqb name) (columns df) = true ->
      columns (set_column df name (map f (records df))) = columns df)
  /\ (existsb (str_eqb name) (columns df) = false ->
      columns (set_column df name (map f (records df))) = columns df ++ [name]
      /\ records (set_column df name (map f (records df)))
         = map (fun r => r ++ [f r]) (records df)).
Proof.
  intros Hall. unfold set_column. rewrite combine_map_same, !map_map.
  destruct (existsb (str_eqb name) (columns df)); cbn [columns records fst snd].
  - split; [|split; [apply length_map | split; [reflexivity | discriminate]]].
    apply Forall_forall. intros r Hr. apply in_map_iff in Hr.
    destruct Hr as [r0 [<- Hr0]]. rewrite overwrite_length.
    rewrite Forall_forall in Hall. exact (Hall r0 Hr0).
  - split; [|split; [apply length_map | split; [discriminate|]]].
    + apply Forall_forall. intros r Hr. apply in_map_iff in Hr.
      destruct Hr as [r0 [<- Hr0]]. rewrite !length_app.
      rewrite Forall_forall in Hall. rewrite (Hall r0 Hr0). reflexivity.
    + intros _. split; reflexivity.
Qed.

(** X13. A run that catches no exception has read a first file with at
    least one non-blank line, has written one and the same frame in
    full to the CSV and to the spreadsheet, and has run the launcher on
    the spreadsheet.  Every
    row of that frame has as many fields as the frame has columns, and
    there are no more rows than data lines.  When no field of the first
    line is "Audit_Flag", the columns are the first line's fields
    followed by "Audit_Flag", each row is a record followed by its
    audit, and no two rows are equal; otherwise the columns are the
    first line's fields alone (those labelled "Audit_Flag" hold the
    flags instead of the data). *)
Theorem successful_run_exports_clean_frame :
  forall (db : UnicodeData) (w : World),
    fst (run_data_processing db w) = None ->
    exists name text others first rest df,
      raw_data w = (name, Text text) :: others
      /\ nonblank_lines db (readlines_from [] text) = first :: rest
      /\ output_csv (snd (run_data_processing db w)) = Written df
      /\ output_excel (snd (run_data_processing db w)) = Written df
      /\ opened (snd (run_data_processing db w)) = true
      /\ Forall (fun r => length r = length (columns df)) (records df)
      /\ length (records df) <= length rest
      /\ (In (u "Audit_Flag") (fields db first) ->
          columns df = fields db first)
      /\ (~ In (u "Audit_Flag") (fields db first) ->
          columns df = fields db first ++ [u "Audit_Flag"]
          /\ NoDup (records df)
          /\ exists data,
               NoDup data
               /\ Forall (fun r => length r = length (fields db first)) data
               /\ records df = map (fun r => r ++ [audit_integrity db r]) data).
Proof.
  intros db w.
  destruct (raw_data w) as [|[name [class message| |text]] others] eqn:Hraw.
  - rewrite (run_no_files db w Hraw). discriminate.
  - rewrite (run_unreadable db w name _ others _ Hraw eq_refl). discriminate.
  - rewrite (run_unreadable db w name _ others _ Hraw eq_refl). discriminate.
  - destruct (nonblank_lines db (readlines_from [] text)) as [|first rest] eqn:Hl.
    + rewrite (run_no_lines db w name text others Hraw Hl). discriminate.
    + rewrite (run_parsed db w name text others first rest Hraw Hl).
      set (w2 := logged w _).
      destruct (export_effect (frame_of db first rest) w2) as [_ [_ Hexp]].
      unfold handled.
      destruct (export (frame_of db first rest) w2) as [[u0|e] w'];
        cbn [fst snd] in *; [|discriminate].
      intros _. subst w'.
      exists name, text, others, first, rest, (frame_of db first rest).
      cbn [output_csv output_excel opened].
      split; [reflexivity|]. split; [exact Hl|].
      split; [reflexivity|]. split; [reflexivity|]. split; [reflexivity|].
      destruct (cleaned_clean db first rest) as [Hnd [Hlen Hle]].
      destruct (set_column_rowwise
                  {| columns := fields db first; records := cleaned db first rest |}
                  audit_flag_column (audit_integrity db) Hlen)
        as [Hrows [Hcount [Hin Hout]]].
      cbn [columns records] in Hrows, Hcount, Hin, Hout.
      fold (frame_of db first rest) in Hrows, Hcount, Hin, Hout.
      change (u "Audit_Flag") with audit_flag_column.
      split; [exact Hrows|]. split; [rewrite Hcount; exact Hle|].
      split.
      * intros Hmem. apply Hin. apply existsb_exists.
        exists audit_flag_column. split; [exact Hmem | apply str_eqb_refl].
      * intros Hmem.
        assert (Hno : existsb (str_eqb audit_flag_column) (fields db first) = false).
        { destruct (existsb (str_eqb audit_flag_column) (fields db first)) eqn:E;
            [|reflexivity].
          apply existsb_exists in E. destruct E as [x [Hx Hxe]].
          apply str_eqb_eq in Hxe. subst x. contradiction. }
        destruct (Hout Hno) as [Hcols Hrecs].
        split; [exact Hcols|]. split.
        -- rewrite Hrecs. apply NoDup_map_injective; [|exact Hnd].
           intros x y Hxy. apply app_inj_tail in Hxy. tauto.
        -- exists (cleaned db first rest).
           split; [exact Hnd|]. split; [exact Hlen | exact Hrecs].
Qed.

Lemma successful_run_exports_clean_frame_witness :
  fst (run_data_processing Ucd.data
         (world0 [(u "in.csv", Text (u "Сотрудник,Город
иванов иван,москва
иванов Иван , москва
"))]))
  = None
  /\ exists df,
       output_csv (snd (run_data_processing Ucd.data
         (world0 [(u "in.csv", Text (u "Сотрудник,Город
иванов иван,москва
иванов Иван , москва
"))])))
       = Written df
       /\ Forall (fun r => length r = length (columns df)) (records df).
Proof.
  split; [reflexivity|].
  destruct (successful_run_exports_clean_frame Ucd.data
              (world0 [(u "in.csv", Text (u "Сотрудник,Город
иванов иван,москва
иванов Иван , москва
"))]) eq_refl)
    as [name [text [others [first [rest [df H]]]]]].
  exists df.
  exact (conj (proj1 (proj2 (proj2 H)))
              (proj1 (proj2 (proj2 (proj2 (proj2 (proj2 H))))))).
Defined.


Lemma export_with_files (df : Frame) (w : World)
      (files : list (str * file_content)) :
  export df (with_files w files)
  = (fst (export df w), with_files (snd (export df w)) files).
Proof.
  unfold export, bindM, to_csv, to_excel, write_log, print, open_file,
    put_csv, put_excel, with_files.
  cbn [platform].
  destruct (csv_outcome (platform w) df); try reflexivity.
  cbn [fst snd raw_data platform log_file output_csv output_excel console opened].
  destruct (excel_outcome (platform w) df); try reflexivity.
  cbn [fst snd raw_data platform log_file output_csv output_excel console opened].
  destruct (open_outcome (platform w)) as [[class message]|]; reflexivity.
Qed.

(** X15. Only the first file of the listing is read: with any other
    files after it the run catches the same exception or none, and
    leaves the same log, outputs and console. *)
Theorem run_reads_first_file_only :
  forall (db : UnicodeData) (w : World) (f : str * file_content)
         (others others' : list (str * file_content)),
    raw_data w = f :: others ->
    run_data_processing db (with_files w (f :: others'))
    = (fst (run_data_processing db w),
       with_files (snd (run_data_processing db w)) (f :: others')).
Proof.
  intros db w [name [class message| |text]] others others' Hraw.
  - rewrite (run_unreadable db w name _ others _ Hraw eq_refl).
    rewrite (run_unreadable db (with_files w _) name (Unreadable class message)
               others' (LibraryError class message) eq_refl eq_refl).
    reflexivity.
  - rewrite (run_unreadable db w name _ others _ Hraw eq_refl).
    rewrite (run_unreadable db (with_files w _) name Undecodable
               others' UnicodeDecodeError eq_refl eq_refl).
    reflexivity.
  - destruct (nonblank_lines db (readlines_from [] text)) as [|first rest] eqn:Hl.
    + rewrite (run_no_lines db w name text others Hraw Hl).
      rewrite (run_no_lines db (with_files w _) name text others' eq_refl Hl).
      reflexivity.
    + rewrite (run_parsed db w name text others first rest Hraw Hl).
      rewrite (run_parsed db (with_files w _) name text others' first rest
                 eq_refl Hl).
      change (logged (with_files w ((name, Text text) :: others')) ?l)
        with (with_files (logged w l) ((name, Text text) :: others')).
      rewrite export_with_files. unfold handled.
      destruct (export (frame_of db first rest) (logged w _)) as [[u0|e] w'];
        reflexivity.
Qed.

Lemma run_reads_first_file_only_witness :
  raw_data (world0 [(u "a.csv", Text (u "x,y")); (u "b.csv", Undecodable)])
  = (u "a.csv", Text (u "x,y")) :: [(u "b.csv", Undecodable)]
  /\ run_data_processing Ucd.data
       (with_files (world0 [(u "a.csv", Text (u "x,y")); (u "b.csv", Undecodable)])
                   ((u "a.csv", Text (u "x,y")) :: []))
     = (fst (run_data_processing Ucd.data
               (world0 [(u "a.csv", Text (u "x,y")); (u "b.csv", Undecodable)])),
        with_files
          (snd (run_data_processing Ucd.data
                  (world0 [(u "a.csv", Text (u "x,y")); (u "b.csv", Undecodable)])))
          ((u "a.csv", Text (u "x,y")) :: [])).
Proof.
  split; [reflexivity|].
  exact (run_reads_first_file_only Ucd.data
           (world0 [(u "a.csv", Text (u "x,y")); (u "b.csv", Undecodable)])
           (u "a.csv", Text (u "x,y")) [(u "b.csv", Undecodable)] [] eq_refl).
Defined.

(** ** More on the dispatcher and location mode *)

Lemma startswith_spec (prefix hay : str) :
  startswith hay prefix = true <-> exists q, hay = prefix ++ q.
Proof.
  revert hay. induction prefix as [|p ps IH]; intros hay; simpl.
  - destruct hay; (split; [intros _; eexists; reflexivity | reflexivity]).
  - destruct hay as [|h hs].
    + split; [discriminate | intros [q Hq]; discriminate].
    + simpl. rewrite andb_true_iff, N.eqb_eq, IH. split.
      * intros [-> [q ->]]. exists q. reflexivity.
      * intros [q Hq]. injection Hq as -> ->. split; [reflexivity | exists q; reflexivity].
Qed.

Lemma contains_spec (needle hay : str) :
  contains needle hay = true <-> exists p q, hay = p ++ needle ++ q.
Proof.
  induction hay as [|h hs IH]; cbn [contains].
  - rewrite orb_false_r, startswith_spec. split.
    + intros [q Hq]. exists [], q. exact Hq.
    + intros [p [q Hpq]]. destruct p; [|discriminate]. exists q. exact Hpq.
  - rewrite orb_true_iff, startswith_spec, IH. split.
    + intros [[q Hq] | [p [q Hpq]]].
      * exists [], q. exact Hq.
      * exists (h :: p), q. simpl. rewrite Hpq. reflexivity.
    + intros [p [q Hpq]]. destruct p as [|a p].
      * left. exists q. exact Hpq.
      * right. injection Hpq as _ Hpq. exists p, q. exact Hpq.
Qed.

(** X16. For a column name without U+03A3, [normalize_text] hands the
    value to [normalize_fio] whenever "сотрудник" occurs in the
    lower-cased name, also when "город" or "место" occurs in it too; to
    [normalize_location] when "сотрудник" does not occur but "город" or
    "место" does; and to [normalize_sentence] when none of the three
    occurs. *)
Theorem dispatch_by_substring :
  forall (db : UnicodeData) (value column_name : str),
    sigma_free column_name = true ->
    ((exists p q, lower db column_name = p ++ u "сотрудник" ++ q) ->
     normalize_text db value column_name = normalize_fio db value)
    /\ (~ (exists p q, lower db column_name = p ++ u "сотрудник" ++ q) ->
        (exists p q, lower db column_name = p ++ u "город" ++ q)
        \/ (exists p q, lower db column_name = p ++ u "место" ++ q) ->
        normalize_text db value column_name = normalize_location db value)
    /\ (~ (exists p q, lower db column_name = p ++ u "сотрудник" ++ q) ->
        ~ (exists p q, lower db column_name = p ++ u "город" ++ q) ->
        ~ (exists p q, lower db column_name = p ++ u "место" ++ q) ->
        normalize_text db value column_name = normalize_sentence db value).
Proof.
  intros db value column_name _.
  change (u "сотрудник") with kw_employee.
  change (u "город") with kw_city.
  change (u "место") with kw_place.
  rewrite <- !contains_spec. unfold normalize_text.
  split; [|split].
  - intros He. rewrite He. destruct value; reflexivity.
  - intros He Hc. apply not_true_is_false in He. rewrite He.
    assert (Hor : contains kw_city (lower db column_name)
                  || contains kw_place (lower db column_name) = true).
    { apply orb_true_iff. exact Hc. }
    rewrite Hor. destruct value; reflexivity.
  - intros He Hc Hp. apply not_true_is_false in He, Hc, Hp.
    rewrite He, Hc, Hp. destruct value; reflexivity.
Qed.

Lemma dispatch_by_substring_witness :
  sigma_free (u "Город сотрудника") = true
  /\ (exists p q, lower Ucd.data (u "Город сотрудника") = p ++ u "сотрудник" ++ q)
  /\ (exists p q, lower Ucd.data (u "Город сотрудника") = p ++ u "город" ++ q)
  /\ normalize_text Ucd.data (u "иванов-петров и.") (u "Город сотрудника")
     = normalize_fio Ucd.data (u "иванов-петров и.").
Proof.
  assert (He : exists p q,
             lower Ucd.data (u "Город сотрудника") = p ++ u "сотрудник" ++ q).
  { exists (u "город "), (u "а"). reflexivity. }
  split; [reflexivity|]. split; [exact He|].
  split; [exists [], (u " сотрудника"); reflexivity|].
  exact (proj1 (dispatch_by_substring Ucd.data (u "иванов-петров и.")
                  (u "Город сотрудника") eq_refl) He).
Defined.

Lemma normalize_value_location (db : UnicodeData) (value column_name : str) :
  dispatch db column_name = Location ->
  normalize_value db value column_name = title db value.
Proof.
  intros H. unfold normalize_value.
  rewrite normalize_text_dispatch, H. destruct value; reflexivity.
Qed.

(** X17. In location mode, for a value without U+03A3, the parts on
    either side of a character that is not cased (a space, a hyphen, a
    digit) are title-cased independently of each other: the result for
    the whole is the result for the part up to and including that
    character, followed by the result for the rest. *)
Theorem location_words_independent :
  forall (db : UnicodeData) (before after column_name : str) (d : char),
    dispatch db column_name = Location ->
    is_cased db d = false ->
    sigma_free (before ++ d :: after) = true ->
    normalize_text db (before ++ d :: after) column_name
    = Ok (normalize_value db (before ++ [d]) column_name
          ++ normalize_value db after column_name).
Proof.
  intros db before after column_name d Hmode Hd _.
  rewrite normalize_text_value. f_equal.
  rewrite !normalize_value_location by exact Hmode.
  change (before ++ d :: after) with (before ++ [d] ++ after).
  rewrite app_assoc. unfold title.
  rewrite (title_from_app db (before ++ [d]) after false d).
  - rewrite last_last, Hd. reflexivity.
  - intros E. apply app_eq_nil in E. destruct E as [_ E]. discriminate.
Qed.

Lemma location_words_independent_witness :
  dispatch Ucd.data (u "Город") = Location
  /\ is_cased Ucd.data 45%N = false
  /\ sigma_free (u "санкт" ++ 45%N :: u "петербург") = true
  /\ normalize_text Ucd.data (u "санкт" ++ 45%N :: u "петербург") (u "Город")
     = Ok (u "Санкт-" ++ u "Петербург").
Proof.
  refine (conj eq_refl (conj eq_refl (conj eq_refl _))).
  exact (location_words_independent Ucd.data (u "санкт") (u "петербург")
           (u "Город") 45%N eq_refl eq_refl eq_refl).
Defined.
